(** * Cerata nodes and edges: a shallow embedding of [cerata/node.cc]

    The file [codegen/cerata/src/cerata/node.cc] implements the vertices of
    Cerata's hardware graph: [Node] and its subclasses [MultiOutputNode],
    [NormalNode], [Literal], [Port], [Signal] and [Parameter], together with
    the [Term] direction mix-in.

    C++ objects live in a store and are named by their addresses.  A method
    [C::m] becomes a function [C.m] that receives the address [this], the
    receiver's current contents [self] and returns the result together with
    the receiver's new contents.  The virtual calls of [Node] are resolved in
    module [Node], which reads the receiver from the store, selects the
    override of its dynamic class and writes the receiver back. *)

From Stdlib Require Import ZArith String List DecimalString DecimalZ DecimalPos.
From stdpp Require Import base option list gmap strings.

Local Open Scope string_scope.
Local Open Scope list_scope.

(** ** Addresses *)

(** [Node *], [Edge *] (also the address held by a [std::shared_ptr<Edge>])
    and [std::shared_ptr<Type>].  Pointers are compared by address only. *)
Abbreviation NodePtr := positive (only parsing).
Abbreviation EdgePtr := positive (only parsing).
Abbreviation TypePtr := positive (only parsing).

(** ** Data model *)

(** [Node::NodeID], as enumerated by [ToString(Node::NodeID)]. *)
Inductive NodeID := PORT | SIGNAL | LITERAL | PARAMETER | EXPRESSION.

(** [Literal::StorageType], as tested by [Literal::ToString]. *)
Inductive StorageType := BOOL | INT | STRING.

(** C++ exceptions thrown by this file. *)
Inductive exception := runtime_error (what : string).

(** Modelled from the spec: class [Edge] is declared in [cerata/edge.h], which
    is not among the sources.  "Edge -- attributes: source (optional
    reference to a Node), destination (optional reference to a Node)".  The
    accessors [src()] and [dst()] used by [node.cc] are the two projections;
    [None] is an absent endpoint. *)
Record Edge := mkEdge { src : option NodePtr; dst : option NodePtr }.

(** [Node::Node(name, id, type)]: the members initialised by the constructor.
    The name is kept by the [Object] base and read back through [name()]. *)
Record Node := mkNode { name : string; node_id_ : NodeID; type_ : TypePtr }.

(** [MultiOutputNode]: a [Node] and the deque [outputs_] of shared pointers to
    the edges it drives, in insertion order. *)
Record MultiOutputNode := mkMultiOutputNode {
  MultiOutputNode_base :> Node;
  outputs_ : list EdgePtr
}.

(** [NormalNode]: a [MultiOutputNode] and the shared pointer [input_], null
    ([None]) when the node has no input edge. *)
Record NormalNode := mkNormalNode {
  NormalNode_base :> MultiOutputNode;
  input_ : option EdgePtr
}.

(** [Literal]: a [MultiOutputNode], the discriminant and the three raw
    storages.  [int_val_] is a C++ [int]; this file only stores and prints
    it, so it is kept as the integer it denotes. *)
Record Literal := mkLiteral {
  Literal_base :> MultiOutputNode;
  storage_type_ : StorageType;
  str_val_ : string;
  int_val_ : Z;
  bool_val_ : bool
}.

Module Term.

(** [Term::Dir]. *)
Inductive Dir := IN | OUT | NONE.

Definition str (dir : Dir) : string :=
  match dir with
  | IN => "in"
  | OUT => "out"
  | NONE => "none"
  end.

Definition Invert (dir : Dir) : Dir :=
  match dir with
  | IN => OUT
  | OUT => IN
  | NONE => NONE
  end.

End Term.

(** [Port]: a [NormalNode] that is also a [Term]; [dir_] is the member of the
    [Term] base. *)
Record Port := mkPort {
  Port_base :> NormalNode;
  dir_ : Term.Dir
}.

Record Signal := mkSignal {
  Signal_base :> NormalNode
}.

(** [Parameter] (a reserved word here, hence the underscore): a [NormalNode]
    with the optional shared pointer to its default [Literal]. *)
Record Parameter_ := mkParameter {
  Parameter_base :> NormalNode;
  default_value_ : option NodePtr
}.

(** The dynamic class of a node object of the store.  Class [Expression] is
    defined in [cerata/expression.cc] and is not embedded. *)
Inductive Object :=
| APort (p : Port)
| ASignal (s : Signal)
| AParameter (p : Parameter_)
| ALiteral (l : Literal).

(** The store: the live node objects and the live edge objects. *)
Record Store := mkStore {
  nodes : gmap positive Object;
  edges : gmap positive Edge
}.

(** ** Library functions used by [node.cc] *)

(** [std::to_string(int)]: the decimal digits, preceded by [-] for a negative
    number. *)
Definition to_string (value : Z) : string :=
  NilZero.string_of_int (Z.to_int value).

(** Modelled from the spec: [Contains] is a template of [cerata/utils.h], which
    is not among the sources.  "the edge is not already present in this
    node's output set (duplicate suppression by identity)": the test is
    membership of the shared pointer, compared by address. *)
Definition Contains (deque : list EdgePtr) (item : EdgePtr) : bool :=
  bool_decide (item ∈ deque).

(** [std::deque::erase] at the first position whose pointer is [edge], as the
    loop of [MultiOutputNode::RemoveEdge] performs it; [None] when the loop
    runs to the end. *)
Fixpoint erase_first (edge : EdgePtr) (outputs : list EdgePtr)
  : option (list EdgePtr) :=
  match outputs with
  | [] => None
  | i :: rest =>
      if decide (i = edge) then Some rest
      else cons i <$> erase_first edge rest
  end.

(** ** Methods *)

Module MultiOutputNode.

(** Modelled from the spec: the constructor of [MultiOutputNode] is defined
    in [cerata/node.h], which is not among the sources.  It forwards its
    arguments to [Node::Node] and names no other member, so [outputs_] is a
    default-constructed (empty) deque: "a new, independent node ... with no
    edges". *)
Definition ctor (name : string) (id : NodeID) (type : TypePtr)
  : MultiOutputNode :=
  mkMultiOutputNode (mkNode name id type) [].

(** [outputs_.push_back(edge)]. *)
Definition push_back (edge : EdgePtr) (self : MultiOutputNode)
  : MultiOutputNode :=
  mkMultiOutputNode self (outputs_ self ++ [edge]).

(** [bool MultiOutputNode::AddEdge(const std::shared_ptr<Edge> &edge)];
    [e] is the object [edge] points to. *)
Definition AddEdge (this : NodePtr) (edge : EdgePtr) (e : Edge)
    (self : MultiOutputNode) : bool * MultiOutputNode :=
  match src e with
  | Some s =>
      if decide (s = this) then
        if negb (Contains (outputs_ self) edge) then
          (true, push_back edge self)
        else (false, self)
      else (false, self)
  | None => (false, self)
  end.

(** [bool MultiOutputNode::RemoveEdge(Edge *edge)]. *)
Definition RemoveEdge (this : NodePtr) (edge : EdgePtr) (e : Edge)
    (self : MultiOutputNode) : bool * MultiOutputNode :=
  match src e with
  | Some s =>
      if decide (s = this) then
        match erase_first edge (outputs_ self) with
        | Some outputs => (true, mkMultiOutputNode self outputs)
        | None => (false, self)
        end
      else (false, self)
  | None => (false, self)
  end.

End MultiOutputNode.

Module NormalNode.

(** Modelled from the spec: the constructor of [NormalNode] is defined in
    [cerata/node.h], which is not among the sources.  It forwards its
    arguments to the [MultiOutputNode] constructor and names no other
    member, so [input_] is a default-constructed (null) shared pointer. *)
Definition ctor (name : string) (id : NodeID) (type : TypePtr)
  : NormalNode :=
  mkNormalNode (MultiOutputNode.ctor name id type) None.

(** [std::optional<Edge *> NormalNode::input() const]. *)
Definition input (self : NormalNode) : option EdgePtr :=
  match input_ self with
  | Some edge => Some edge
  | None => None
  end.

(** [std::deque<Edge *> NormalNode::sources() const]. *)
Definition sources (self : NormalNode) : list EdgePtr :=
  match input_ self with
  | Some edge => [edge]
  | None => []
  end.

(** [bool NormalNode::AddEdge(const std::shared_ptr<Edge> &edge)]. *)
Definition AddEdge (this : NodePtr) (edge : EdgePtr) (e : Edge)
    (self : NormalNode) : bool * NormalNode :=
  let '(success, base) := MultiOutputNode.AddEdge this edge e self in
  let self := mkNormalNode base (input_ self) in
  if negb success then
    match dst e with
    | Some d =>
        if decide (d = this) then (true, mkNormalNode self (Some edge))
        else (success, self)
    | None => (success, self)
    end
  else (success, self).

(** [bool NormalNode::RemoveEdge(Edge *edge)]. *)
Definition RemoveEdge (this : NodePtr) (edge : EdgePtr) (e : Edge)
    (self : NormalNode) : bool * NormalNode :=
  let '(success, base) := MultiOutputNode.RemoveEdge this edge e self in
  let self := mkNormalNode base (input_ self) in
  match dst e with
  | Some d =>
      if negb success then
        if bool_decide (d = this) && bool_decide (input_ self = Some edge) then
          (true, mkNormalNode self None)
        else (success, self)
      else (success, self)
  | None => (success, self)
  end.

End NormalNode.

Module Literal.

(** The three constructors.  Each stamps the discriminant and initialises
    the storage of its own kind.

    Modelled from the spec: the member declarations are in [cerata/node.h],
    which is not among the sources; a storage that the constructor does not
    name is taken at its empty value.  "Construction variants bind exactly
    one of {bool, int, string} and stamp a storage-kind discriminant". *)
Definition ctor_string (name : string) (type : TypePtr) (value : string)
  : Literal :=
  mkLiteral (MultiOutputNode.ctor name LITERAL type) STRING value 0%Z false.

Definition ctor_int (name : string) (type : TypePtr) (value : Z) : Literal :=
  mkLiteral (MultiOutputNode.ctor name LITERAL type) INT "" value false.

Definition ctor_bool (name : string) (type : TypePtr) (value : bool)
  : Literal :=
  mkLiteral (MultiOutputNode.ctor name LITERAL type) BOOL "" 0%Z value.

(** The overloads of [Literal::Make] that take a type. *)
Definition Make_bool (name : string) (type : TypePtr) (value : bool)
  : Literal := ctor_bool name type value.

Definition Make_int (name : string) (type : TypePtr) (value : Z)
  : Literal := ctor_int name type value.

Definition Make_type_string (type : TypePtr) (value : string) : Literal :=
  ctor_string value type value.

Definition Make_string (name : string) (type : TypePtr) (value : string)
  : Literal := ctor_string name type value.

(** [std::string Literal::ToString() const].  [std::to_string] has no
    overload for [bool]: the argument [bool_val_] is promoted to [int]. *)
Definition ToString (self : Literal) : string :=
  match storage_type_ self with
  | BOOL => to_string (Z.b2z (bool_val_ self))
  | STRING => str_val_ self
  | INT => to_string (int_val_ self)
  end.

(** [std::shared_ptr<Object> Literal::Copy() const]: the contents of the
    object created by [new Literal(name(), typ, storage_type_, str_val_,
    int_val_, bool_val_)], a constructor of [cerata/node.h] that receives
    every storage. *)
Definition Copy (self : Literal) : Literal :=
  mkLiteral (MultiOutputNode.ctor (name self) LITERAL (type_ self))
    (storage_type_ self) (str_val_ self) (int_val_ self) (bool_val_ self).

(** [std::shared_ptr<Edge> Literal::AddSource(Node *source)]: the body is a
    [throw]; the store is left as it was. *)
Definition AddSource (this source : NodePtr) (σ : Store)
  : (exception + EdgePtr) * Store :=
  (inl (runtime_error "Cannot drive a literal node."), σ).

Section Types.
(** The type handles returned by [boolean()], [integer()] and [string()]
    of the type engine. *)
Variables boolean integer string_type : TypePtr.

(** [Literal::Make(int value)] and [Literal::Make(std::string value)]. *)
Definition Make_of_int (value : Z) : Literal :=
  ctor_int ("int" +:+ to_string value) integer value.

Definition Make_of_string (value : string) : Literal :=
  ctor_string ("str:" +:+ value) string_type value.

(** [bool_true()] and [bool_false()]: the contents of the function-local
    static literal that each creates on its first call. *)
Definition bool_true : Literal := Make_bool "bool_true" boolean true.

Definition bool_false : Literal := Make_bool "bool_true" boolean false.
End Types.

End Literal.

(** [std::string ToString(Node::NodeID id)]; the [default] branch, which
    throws, is not reached by an enumerator. *)
Definition ToString (id : NodeID) : string :=
  match id with
  | PORT => "Port"
  | SIGNAL => "Signal"
  | LITERAL => "Literal"
  | PARAMETER => "Parameter"
  | EXPRESSION => "Expression"
  end.

Module Port.

(** [Port::Port(name, type, dir)]. *)
Definition ctor (name : string) (type : TypePtr) (dir : Term.Dir) : Port :=
  mkPort (NormalNode.ctor name PORT type) dir.

Definition Make (name : string) (type : TypePtr) (dir : Term.Dir) : Port :=
  ctor name type dir.

(** [dir()], the accessor of the [Term] base. *)
Definition dir (self : Port) : Term.Dir := dir_ self.

(** [std::shared_ptr<Object> Port::Copy() const]. *)
Definition Copy (self : Port) : Port :=
  ctor (name self) (type_ self) (dir self).

(** [Port &Port::InvertDirection()]. *)
Definition InvertDirection (self : Port) : Port :=
  mkPort self (Term.Invert (dir_ self)).

End Port.

Module Parameter_.

(** [Parameter::Parameter(name, type, default_value)]. *)
Definition ctor (name : string) (type : TypePtr)
    (default_value : option NodePtr) : Parameter_ :=
  mkParameter (NormalNode.ctor name PARAMETER type) default_value.

Definition Make (name : string) (type : TypePtr)
    (default_value : option NodePtr) : Parameter_ :=
  ctor name type default_value.

(** [std::shared_ptr<Object> Parameter::Copy() const]. *)
Definition Copy (self : Parameter_) : Parameter_ :=
  Make (name self) (type_ self) (default_value_ self).

(** [std::optional<Node *> Parameter::val() const].  The outer option is
    [None] only when [input_] does not point to a live edge, which shared
    ownership excludes. *)
Definition val (σ : Store) (self : Parameter_) : option (option NodePtr) :=
  match NormalNode.input self with
  | Some edge => src <$> edges σ !! edge
  | None =>
      match default_value_ self with
      | Some lit => Some (Some lit)
      | None => Some None
      end
  end.

End Parameter_.

Module Signal.

(** [Signal::Signal(name, type)]. *)
Definition ctor (name : string) (type : TypePtr) : Signal :=
  mkSignal (NormalNode.ctor name SIGNAL type).

Definition Make (name : string) (type : TypePtr) : Signal := ctor name type.

(** [std::shared_ptr<Object> Signal::Copy() const]. *)
Definition Copy (self : Signal) : Signal :=
  ctor (name self) (type_ self).

End Signal.

(** ** Virtual calls on objects of the store *)

Module Node.

(** [std::string Node::ToString() const]. *)
Definition ToString (self : Node) : string := name self.

(** The [MultiOutputNode] base that every class of this file has. *)
Definition base (o : Object) : MultiOutputNode :=
  match o with
  | APort p => p
  | ASignal s => s
  | AParameter p => p
  | ALiteral l => l
  end.

(** The output set of a node. *)
Definition outputs (o : Object) : list EdgePtr := outputs_ (base o).

(** Modelled from the spec: the [sources()] that [Literal] inherits is
    defined in [cerata/node.h], which is not among the sources.  A node
    without an input member has no sources: "Literal nodes reject any inbound
    edge unconditionally". *)
Definition sources_inherited : list EdgePtr := [].

(** The virtual [sources()]; [NormalNode] overrides it. *)
Definition sources (o : Object) : list EdgePtr :=
  match o with
  | APort p => NormalNode.sources p
  | ASignal s => NormalNode.sources s
  | AParameter p => NormalNode.sources p
  | ALiteral _ => sources_inherited
  end.

(** Runs the override that the dynamic class of [o] selects: a method of
    [NormalNode] for [Port], [Signal] and [Parameter], which do not override
    it, and a method of [MultiOutputNode] for [Literal]. *)
Definition dispatch {R : Type}
    (normal : NormalNode -> R * NormalNode)
    (multi : MultiOutputNode -> R * MultiOutputNode)
    (o : Object) : R * Object :=
  match o with
  | APort p =>
      let '(r, n) := normal p in (r, APort (mkPort n (dir_ p)))
  | ASignal s =>
      let '(r, n) := normal s in (r, ASignal (mkSignal n))
  | AParameter p =>
      let '(r, n) := normal p in
      (r, AParameter (mkParameter n (default_value_ p)))
  | ALiteral l =>
      let '(r, m) := multi l in
      (r, ALiteral (mkLiteral m (storage_type_ l) (str_val_ l)
                      (int_val_ l) (bool_val_ l)))
  end.

(** Writes the receiver back at its address. *)
Definition update (this : NodePtr) (o : Object) (σ : Store) : Store :=
  mkStore (<[this := o]> (nodes σ)) (edges σ).

(** [node->AddEdge(edge)] for the node at address [this].  The result is
    [None] when [this] or [edge] is not the address of a live object. *)
Definition AddEdge (this : NodePtr) (edge : EdgePtr) (σ : Store)
  : option (bool * Store) :=
  o ← nodes σ !! this;
  e ← edges σ !! edge;
  let '(success, o') :=
    dispatch (NormalNode.AddEdge this edge e)
             (MultiOutputNode.AddEdge this edge e) o in
  Some (success, update this o' σ).

(** [node->RemoveEdge(edge)] for the node at address [this]. *)
Definition RemoveEdge (this : NodePtr) (edge : EdgePtr) (σ : Store)
  : option (bool * Store) :=
  o ← nodes σ !! this;
  e ← edges σ !! edge;
  let '(success, o') :=
    dispatch (NormalNode.RemoveEdge this edge e)
             (MultiOutputNode.RemoveEdge this edge e) o in
  Some (success, update this o' σ).

(** The override of [Copy()] that the dynamic class selects. *)
Definition Copy_object (o : Object) : Object :=
  match o with
  | APort p => APort (Port.Copy p)
  | ASignal s => ASignal (Signal.Copy s)
  | AParameter p => AParameter (Parameter_.Copy p)
  | ALiteral l => ALiteral (Literal.Copy l)
  end.

(** [node->Copy()] for the node at address [this]: the copy is allocated at
    an address that no live node has, and that address is returned. *)
Definition Copy (this : NodePtr) (σ : Store) : option (NodePtr * Store) :=
  o ← nodes σ !! this;
  let copy := fresh (dom (nodes σ)) in
  Some (copy, update copy (Copy_object o) σ).

End Node.

(** A client that calls [AddSource] on a literal once for every element of
    [sources], catching the exception each time; it returns what every call
    produced. *)
Fixpoint AddSource_each (this : NodePtr) (sources : list NodePtr) (σ : Store)
  : list (exception + EdgePtr) * Store :=
  match sources with
  | [] => ([], σ)
  | source :: rest =>
      let '(r, σ1) := Literal.AddSource this source σ in
      let '(rs, σ2) := AddSource_each this rest σ1 in
      (r :: rs, σ2)
  end.

(** A client that calls [AddEdge] on one node for every edge of a list, in
    order, and keeps the results. *)
Fixpoint AddEdge_each (this : NodePtr) (es : list EdgePtr) (σ : Store)
  : option (list bool * Store) :=
  match es with
  | [] => Some ([], σ)
  | edge :: rest =>
      '(b, σ1) ← Node.AddEdge this edge σ;
      '(bs, σ2) ← AddEdge_each this rest σ1;
      Some (b :: bs, σ2)
  end.

(** The calls that a client can make on the nodes of a store. *)
Inductive Call :=
| CallAddEdge (this : NodePtr) (edge : EdgePtr)
| CallRemoveEdge (this : NodePtr) (edge : EdgePtr)
| CallCopy (this : NodePtr).

(** One call, made for its effect on the store. *)
Definition call (c : Call) (σ : Store) : option Store :=
  match c with
  | CallAddEdge this edge => snd <$> Node.AddEdge this edge σ
  | CallRemoveEdge this edge => snd <$> Node.RemoveEdge this edge σ
  | CallCopy this => snd <$> Node.Copy this σ
  end.

(** A client that makes the calls of a list one after the other. *)
Fixpoint run (calls : list Call) (σ : Store) : option Store :=
  match calls with
  | [] => Some σ
  | c :: rest => σ1 ← call c σ; run rest σ1
  end.

(** ** A small design: signals [a], [a2], port [b], literal [l], parameter [p] *)

Module Example.

Definition a : NodePtr := 1%positive.
Definition a2 : NodePtr := 2%positive.
Definition b : NodePtr := 3%positive.
Definition l : NodePtr := 4%positive.
Definition p : NodePtr := 5%positive.

(** Edge [e1] is driven by [a], edge [e2] by [a2], edge [e3] by [l], edge
    [e4] by [a]; [e1] and [e2] both end in [b], [e3] and [e4] end in [p]. *)
Definition e1 : EdgePtr := 11%positive.
Definition e2 : EdgePtr := 12%positive.
Definition e3 : EdgePtr := 13%positive.
Definition e4 : EdgePtr := 14%positive.

Definition bit : TypePtr := 21%positive.
Definition integer : TypePtr := 22%positive.

Definition initial : Store :=
  mkStore
    (<[a := ASignal (Signal.Make "a" bit)]>
     (<[a2 := ASignal (Signal.Make "a2" bit)]>
      (<[b := APort (Port.Make "b" bit Term.OUT)]>
       (<[l := ALiteral (Literal.Make_of_int integer 42)]>
        (<[p := AParameter (Parameter_.Make "p" integer (Some l))]> ∅)))))
    (<[e1 := mkEdge (Some a) (Some b)]>
     (<[e2 := mkEdge (Some a2) (Some b)]>
      (<[e3 := mkEdge (Some l) (Some p)]>
       (<[e4 := mkEdge (Some a) (Some p)]> ∅)))).

(** The design after [e1] has been registered with both of its endpoints:
    [a] drives [b]. *)
Definition connected : Store :=
  default initial
    ('(_, σ1) ← Node.AddEdge a e1 initial;
     '(_, σ2) ← Node.AddEdge b e1 σ1;
     Some σ2).

End Example.

(** ** Vocabulary of the properties *)

(** How many entries of an output set are the edge [edge]. *)
Definition entries (edge : EdgePtr) (outputs : list EdgePtr) : nat :=
  count_occ Pos.eq_dec outputs edge.

(** The reading of the fan-in rule under which an occupied node turns a second
    inbound edge away and keeps the one it holds. *)
Definition second_inbound_edge_rejected : Prop :=
  forall (this : NodePtr) (held edge : EdgePtr) (e : Edge) (self : NormalNode),
    input_ self = Some held ->
    edge ≠ held ->
    dst e = Some this ->
    let '(success, self') := NormalNode.AddEdge this edge e self in
    success = false /\ input_ self' = Some held.

(** What a copy shares with its original beyond name and type: the direction
    of a port, the default literal of a parameter, the stored value of a
    literal.  A copy of another class shares nothing. *)
Definition same_attributes (o c : Object) : Prop :=
  match o, c with
  | APort p, APort p' => dir_ p' = dir_ p
  | ASignal _, ASignal _ => True
  | AParameter p, AParameter p' => default_value_ p' = default_value_ p
  | ALiteral l, ALiteral l' =>
      storage_type_ l' = storage_type_ l /\ str_val_ l' = str_val_ l
      /\ int_val_ l' = int_val_ l /\ bool_val_ l' = bool_val_ l
  | _, _ => False
  end.

(** The reading of literal rendering under which a boolean literal renders as
    the word for its value, next to the two renderings that the reading
    shares with the code. *)
Definition literal_renders_boolean_as_word : Prop :=
  (forall (name : string) (type : TypePtr) (value : bool),
     Literal.ToString (Literal.Make_bool name type value)
     = (if value then "true" else "false"))
  /\ (forall (name : string) (type : TypePtr),
        Literal.ToString (Literal.Make_int name type 42) = "42")
  /\ (forall (name : string) (type : TypePtr),
        Literal.ToString (Literal.Make_string name type "foo") = "foo").

(** What every call of [Literal::AddSource] produces. *)
Definition cannot_drive : exception + EdgePtr :=
  inl (runtime_error "Cannot drive a literal node.").

(** Every node of the store has an output set without repeated entries. *)
Definition outputs_distinct (σ : Store) : Prop :=
  forall (p : NodePtr) (o : Object),
    nodes σ !! p = Some o -> NoDup (Node.outputs o).

(** Every edge that a node of the store holds is live and names the node as
    the matching endpoint: the source for an output, the destination for an
    input. *)
Definition endpoints_consistent (σ : Store) : Prop :=
  forall (p : NodePtr) (o : Object),
    nodes σ !! p = Some o ->
    (forall edge, edge ∈ Node.outputs o ->
       exists e, edges σ !! edge = Some e /\ src e = Some p)
    /\ (forall edge, edge ∈ Node.sources o ->
          exists e, edges σ !! edge = Some e /\ dst e = Some p).

(** What [AddEdge] with edge [edge], which points to [e], can do to the
    outputs and the sources of its receiver [this]. *)
Definition added (this : NodePtr) (edge : EdgePtr) (e : Edge)
    (outs srcs outs' srcs' : list EdgePtr) : Prop :=
  (outs' = outs \/ (src e = Some this /\ outs' = outs ++ [edge]))
  /\ (srcs' = srcs \/ (dst e = Some this /\ srcs' = [edge])).

(** What [RemoveEdge] can do to them. *)
Definition removed (outs srcs outs' srcs' : list EdgePtr) : Prop :=
  outs' `sublist_of` outs /\ (srcs' = srcs \/ srcs' = []).

(** The identifier that the constructor of each class passes to
    [Node::Node]. *)
Definition class_id (o : Object) : NodeID :=
  match o with
  | APort _ => PORT
  | ASignal _ => SIGNAL
  | AParameter _ => PARAMETER
  | ALiteral _ => LITERAL
  end.

(** * Properties *)

(** Unfolds the body of an [AddEdge] or [RemoveEdge] and decides each of its
    guards. *)
Ltac guards :=
  unfold NormalNode.AddEdge, NormalNode.RemoveEdge,
    MultiOutputNode.AddEdge, MultiOutputNode.RemoveEdge, Contains;
  repeat (case_decide || case_bool_decide || case_match);
  simplify_eq/=; try (done || congruence).

(** ** The output side: [MultiOutputNode::AddEdge] *)

Section MultiOutput.

Variables (this : NodePtr) (edge : EdgePtr) (e : Edge).

Lemma MultiOutputNode_AddEdge_accept (self : MultiOutputNode) :
  src e = Some this -> edge ∉ outputs_ self ->
  MultiOutputNode.AddEdge this edge e self
  = (true, MultiOutputNode.push_back edge self).
Proof. intros Hsrc Hnew. guards. Qed.

Lemma MultiOutputNode_AddEdge_reject (self : MultiOutputNode) :
  ~ (src e = Some this /\ edge ∉ outputs_ self) ->
  MultiOutputNode.AddEdge this edge e self = (false, self).
Proof. intros Hno. guards. destruct Hno. auto. Qed.

(** The two outcomes are the only ones. *)
Lemma MultiOutputNode_AddEdge_cases (self : MultiOutputNode) :
  (src e = Some this /\ (edge ∉ outputs_ self) /\
   MultiOutputNode.AddEdge this edge e self
   = (true, MultiOutputNode.push_back edge self))
  \/ (~ (src e = Some this /\ edge ∉ outputs_ self) /\
      MultiOutputNode.AddEdge this edge e self = (false, self)).
Proof.
  destruct (decide (src e = Some this /\ edge ∉ outputs_ self))
    as [[Hsrc Hnew]|Hno].
  - left. auto using MultiOutputNode_AddEdge_accept.
  - right. auto using MultiOutputNode_AddEdge_reject.
Qed.

Lemma push_back_outputs (self : MultiOutputNode) :
  outputs_ (MultiOutputNode.push_back edge self) = outputs_ self ++ [edge].
Proof. reflexivity. Qed.

Lemma push_back_NoDup (self : MultiOutputNode) :
  edge ∉ outputs_ self -> NoDup (outputs_ self) ->
  NoDup (outputs_ (MultiOutputNode.push_back edge self)).
Proof.
  intros Hnew Hnd. rewrite push_back_outputs. apply NoDup_app.
  split; [done|]. split; [|apply NoDup_singleton].
  intros x Hx ->%list_elem_of_singleton. done.
Qed.

(** An accepted call never introduces a repeated output entry. *)
Lemma MultiOutputNode_AddEdge_NoDup (self : MultiOutputNode) :
  NoDup (outputs_ self) ->
  NoDup (outputs_ (MultiOutputNode.AddEdge this edge e self).2).
Proof.
  intros Hnd.
  destruct (MultiOutputNode_AddEdge_cases self)
    as [(_ & Hnew & ->)|(_ & ->)]; [|done].
  by apply push_back_NoDup.
Qed.

End MultiOutput.

Lemma entries_app edge l k :
  entries edge (l ++ k) = entries edge l + entries edge k.
Proof. apply count_occ_app. Qed.

Lemma entries_absent edge l : edge ∉ l <-> entries edge l = 0.
Proof. rewrite list_elem_of_In. apply count_occ_not_In. Qed.

Lemma entries_self edge : entries edge [edge] = 1.
Proof. unfold entries. simpl. by destruct (Pos.eq_dec edge edge). Qed.

(** C5: [MultiOutputNode::AddEdge] returns true exactly when the edge has a
    source, the source is this node and the edge is not yet in the output
    set; it then appends the edge and otherwise changes nothing.  A second
    call with the same edge returns false and changes nothing, so that on
    the source node the two calls leave one entry for an edge that had none
    and as many as before for an edge that was present. *)
Theorem MultiOutputNode_AddEdge_new_output_only
    (this : NodePtr) (edge : EdgePtr) (e : Edge) (self : MultiOutputNode) :
  let '(success, self1) := MultiOutputNode.AddEdge this edge e self in
  let '(again, self2) := MultiOutputNode.AddEdge this edge e self1 in
  success = bool_decide (src e = Some this /\ edge ∉ outputs_ self)
  /\ self1 = (if success then mkMultiOutputNode self (outputs_ self ++ [edge])
              else self)
  /\ again = false
  /\ self2 = self1
  /\ entries edge (outputs_ self2)
     = (if bool_decide (src e = Some this)
        then Nat.max 1 (entries edge (outputs_ self))
        else entries edge (outputs_ self)).
Proof.
  destruct (MultiOutputNode_AddEdge_cases this edge e self)
    as [(Hsrc & Hnew & ->)|(Hno & ->)].
  - rewrite MultiOutputNode_AddEdge_reject.
    2:{ rewrite push_back_outputs. intros [_ Hout]. apply Hout.
        apply elem_of_app. right. by apply list_elem_of_singleton. }
    rewrite bool_decide_eq_true_2 by done.
    rewrite (bool_decide_eq_true_2 _ Hsrc).
    repeat split; try done.
    rewrite push_back_outputs, entries_app, entries_self.
    apply entries_absent in Hnew. rewrite Hnew. done.
  - rewrite MultiOutputNode_AddEdge_reject by done.
    rewrite bool_decide_eq_false_2 by done.
    repeat split; try done.
    case_bool_decide as Hsrc; [|done].
    destruct (decide (edge ∈ outputs_ self)) as [Hin|Hout].
    + apply list_elem_of_In, (count_occ_In Pos.eq_dec) in Hin.
      unfold entries. lia.
    + destruct Hno. done.
Qed.

(** ** Directions *)

(** C9: [Term::Invert] maps in to out, out to in and none to none; applied
    twice it gives back the direction it started from, for in and out (and
    for none as well). *)
Theorem Term_Invert_involutive :
  Term.Invert Term.IN = Term.OUT
  /\ Term.Invert Term.OUT = Term.IN
  /\ Term.Invert Term.NONE = Term.NONE
  /\ Term.Invert (Term.Invert Term.IN) = Term.IN
  /\ Term.Invert (Term.Invert Term.OUT) = Term.OUT
  /\ forall d : Term.Dir, Term.Invert (Term.Invert d) = d.
Proof. repeat split. by intros []. Qed.

(** A port whose direction is inverted twice is the port it was. *)
Lemma Port_InvertDirection_twice (p : Port) :
  Port.InvertDirection (Port.InvertDirection p) = p.
Proof.
  destruct p as [n d]. unfold Port.InvertDirection. simpl.
  f_equal. by destruct d.
Qed.

(** ** Literals *)

(** C10: the literal behind [bool_false()] stores the boolean false and is
    named [bool_true], the name of the literal behind [bool_true()], which
    stores true: the names do not tell the two singletons apart. *)
Theorem bool_false_is_named_bool_true (boolean : TypePtr) :
  storage_type_ (Literal.bool_false boolean) = BOOL
  /\ bool_val_ (Literal.bool_false boolean) = false
  /\ name (Literal.bool_false boolean) = "bool_true"
  /\ storage_type_ (Literal.bool_true boolean) = BOOL
  /\ bool_val_ (Literal.bool_true boolean) = true
  /\ name (Literal.bool_true boolean) = "bool_true"
  /\ name (Literal.bool_false boolean) = name (Literal.bool_true boolean).
Proof. repeat split. Qed.

(** ** The input side: [NormalNode::AddEdge] *)

Section Normal.

Variables (this : NodePtr) (edge : EdgePtr) (e : Edge).

Lemma NormalNode_eta (self : NormalNode) :
  mkNormalNode self (input_ self) = self.
Proof. by destruct self. Qed.

(** The edge is taken as an output: the input is not touched. *)
Lemma NormalNode_AddEdge_as_output (self : NormalNode) :
  src e = Some this -> edge ∉ outputs_ self ->
  NormalNode.AddEdge this edge e self
  = (true, mkNormalNode (MultiOutputNode.push_back edge self) (input_ self)).
Proof.
  intros Hsrc Hnew. unfold NormalNode.AddEdge.
  by rewrite MultiOutputNode_AddEdge_accept.
Qed.

(** The edge is not taken as an output and ends in this node: it becomes the
    input, whatever [input_] held. *)
Lemma NormalNode_AddEdge_as_input (self : NormalNode) :
  ~ (src e = Some this /\ edge ∉ outputs_ self) -> dst e = Some this ->
  NormalNode.AddEdge this edge e self = (true, mkNormalNode self (Some edge)).
Proof.
  intros Hno Hdst. unfold NormalNode.AddEdge.
  rewrite MultiOutputNode_AddEdge_reject by done. simpl.
  rewrite Hdst. by rewrite decide_True.
Qed.

(** The edge neither starts nor ends here in an acceptable way. *)
Lemma NormalNode_AddEdge_rejected (self : NormalNode) :
  ~ (src e = Some this /\ edge ∉ outputs_ self) -> dst e ≠ Some this ->
  NormalNode.AddEdge this edge e self = (false, self).
Proof.
  intros Hno Hdst. unfold NormalNode.AddEdge.
  rewrite MultiOutputNode_AddEdge_reject by done. simpl.
  rewrite NormalNode_eta.
  destruct (dst e) as [d|]; [|done].
  rewrite decide_False; [done|congruence].
Qed.

Lemma NormalNode_sources_at_most_one (self : NormalNode) :
  length (NormalNode.sources self) <= 1.
Proof. unfold NormalNode.sources. destruct (input_ self); simpl; lia. Qed.

Lemma MultiOutputNode_AddEdge_false (self self' : MultiOutputNode) :
  MultiOutputNode.AddEdge this edge e self = (false, self') -> self' = self.
Proof.
  destruct (MultiOutputNode_AddEdge_cases this edge e self)
    as [(_ & _ & ->)|(_ & ->)]; congruence.
Qed.

Lemma NormalNode_AddEdge_false (self self' : NormalNode) :
  NormalNode.AddEdge this edge e self = (false, self') -> self' = self.
Proof.
  destruct (decide (src e = Some this /\ edge ∉ outputs_ self))
    as [[Hsrc Hnew]|Hno].
  - by rewrite NormalNode_AddEdge_as_output.
  - destruct (decide (dst e = Some this)) as [Hdst|Hdst].
    + by rewrite NormalNode_AddEdge_as_input.
    + rewrite NormalNode_AddEdge_rejected by done. congruence.
Qed.

End Normal.

(** C2: [NormalNode::AddEdge] first runs [MultiOutputNode::AddEdge]; when that
    accepts the edge the input is left alone; when it does not and the edge
    ends in this node, the edge becomes the input in place of whatever was
    held; otherwise the call fails and nothing changes.  The input is one
    shared pointer, so in every state [sources()] has at most one element. *)
Theorem NormalNode_AddEdge_output_first_then_single_input
    (this : NodePtr) (edge : EdgePtr) (e : Edge) (self : NormalNode) :
  let '(as_output, base) := MultiOutputNode.AddEdge this edge e self in
  let '(success, self') := NormalNode.AddEdge this edge e self in
  (success, self')
  = (if as_output then (true, mkNormalNode base (input_ self))
     else if bool_decide (dst e = Some this)
          then (true, mkNormalNode self (Some edge))
          else (false, self))
  /\ (if as_output then NormalNode.sources self' = NormalNode.sources self
      else if bool_decide (dst e = Some this)
           then NormalNode.sources self' = [edge]
                /\ outputs_ self' = outputs_ self
           else True)
  /\ forall node : NormalNode, length (NormalNode.sources node) <= 1.
Proof.
  destruct (MultiOutputNode_AddEdge_cases this edge e self)
    as [(Hsrc & Hnew & ->)|(Hno & ->)].
  - rewrite NormalNode_AddEdge_as_output by done.
    auto using NormalNode_sources_at_most_one.
  - case_bool_decide as Hdst.
    + rewrite NormalNode_AddEdge_as_input by done.
      auto using NormalNode_sources_at_most_one.
    + rewrite NormalNode_AddEdge_rejected by done.
      auto using NormalNode_sources_at_most_one.
Qed.

(** C1, as stated, does not hold: port [b] of the example holds the inbound
    edge [e1] (from signal [a]); [AddEdge] with [e2] (from signal [a2] to
    [b]) returns true and [b] then holds [e2]. *)
Lemma second_inbound_edge_not_rejected : ~ second_inbound_edge_rejected.
Proof.
  intros Hclaim.
  specialize (Hclaim Example.b Example.e1 Example.e2
                (mkEdge (Some Example.a2) (Some Example.b))
                (mkNormalNode
                   (MultiOutputNode.ctor "b" PORT Example.bit)
                   (Some Example.e1))
                eq_refl ltac:(discriminate) eq_refl).
  vm_compute in Hclaim. destruct Hclaim as [Hfalse _]. discriminate Hfalse.
Qed.

(** The same on the store of the example: [b] accepts [e1], then accepts [e2]
    and is left with [e2] as its only source. *)
Lemma Example_second_driver_replaces_first :
  exists (σ1 σ2 : Store) (b1 b2 : Object),
    Node.AddEdge Example.b Example.e1 Example.initial = Some (true, σ1)
    /\ nodes σ1 !! Example.b = Some b1
    /\ Node.sources b1 = [Example.e1]
    /\ Node.AddEdge Example.b Example.e2 σ1 = Some (true, σ2)
    /\ nodes σ2 !! Example.b = Some b2
    /\ Node.sources b2 = [Example.e2].
Proof.
  do 4 eexists.
  split; [vm_compute; reflexivity|].
  split; [vm_compute; reflexivity|].
  split; [reflexivity|].
  split; [vm_compute; reflexivity|].
  split; [vm_compute; reflexivity|].
  reflexivity.
Qed.

(** C1, amended: a node that holds an inbound edge accepts a second edge that
    ends in it ([AddEdge] returns true).  Unless the edge is taken as an
    output (it also starts at this node and is not yet in the output set),
    it becomes the input in place of the held edge, which need not be
    removed first; if it is taken as an output, the held edge stays. *)
Theorem NormalNode_AddEdge_second_input_replaces
    (this : NodePtr) (held edge : EdgePtr) (e : Edge) (self : NormalNode) :
  input_ self = Some held ->
  dst e = Some this ->
  let '(success, self') := NormalNode.AddEdge this edge e self in
  success = true
  /\ (if bool_decide (src e = Some this /\ edge ∉ outputs_ self)
      then input_ self' = Some held
           /\ outputs_ self' = outputs_ self ++ [edge]
      else input_ self' = Some edge
           /\ outputs_ self' = outputs_ self).
Proof.
  intros Hheld Hdst. case_bool_decide as Hout.
  - destruct Hout as [Hsrc Hnew].
    rewrite NormalNode_AddEdge_as_output by done. simpl. auto.
  - rewrite NormalNode_AddEdge_as_input by done. simpl. auto.
Qed.

(** The port [b] holding [e1] receives [e2]. *)
Lemma NormalNode_AddEdge_second_input_replaces_witness :
  let b := mkNormalNode (MultiOutputNode.ctor "b" PORT Example.bit)
             (Some Example.e1) in
  let '(success, b') :=
    NormalNode.AddEdge Example.b Example.e2
      (mkEdge (Some Example.a2) (Some Example.b)) b in
  success = true
  /\ input_ b' = Some Example.e2 /\ outputs_ b' = outputs_ b.
Proof.
  exact (NormalNode_AddEdge_second_input_replaces Example.b Example.e1
           Example.e2 (mkEdge (Some Example.a2) (Some Example.b))
           (mkNormalNode (MultiOutputNode.ctor "b" PORT Example.bit)
              (Some Example.e1))
           eq_refl eq_refl).
Defined.

(** ** Calls through the store *)

Section StoreCalls.

Lemma update_same (this : NodePtr) (o : Object) (σ : Store) :
  nodes σ !! this = Some o -> Node.update this o σ = σ.
Proof.
  intros Hthis. destruct σ as [ns es]. unfold Node.update. simpl in *.
  by rewrite insert_id.
Qed.

Lemma update_lookup (this : NodePtr) (o : Object) (σ : Store) :
  nodes (Node.update this o σ) !! this = Some o.
Proof. apply lookup_insert_eq. Qed.

Lemma update_lookup_other (this other : NodePtr) (o : Object) (σ : Store) :
  this ≠ other ->
  nodes (Node.update this o σ) !! other = nodes σ !! other.
Proof. intros Hne. by apply lookup_insert_ne. Qed.

(** A method call that reports false without changing its receiver is, after
    dispatch, a call that reports false without changing the object. *)
Lemma dispatch_false
    (normal : NormalNode -> bool * NormalNode)
    (multi : MultiOutputNode -> bool * MultiOutputNode) :
  (forall n n', normal n = (false, n') -> n' = n) ->
  (forall m m', multi m = (false, m') -> m' = m) ->
  forall o o', Node.dispatch normal multi o = (false, o') -> o' = o.
Proof.
  intros Hnormal Hmulti o o'. unfold Node.dispatch.
  destruct o as [[n d]|[n]|[n dv]|[m st sv iv bv]]; simpl.
  - destruct (normal n) as [r n'] eqn:Hcall. intros [= -> <-].
    by rewrite (Hnormal _ _ Hcall).
  - destruct (normal n) as [r n'] eqn:Hcall. intros [= -> <-].
    by rewrite (Hnormal _ _ Hcall).
  - destruct (normal n) as [r n'] eqn:Hcall. intros [= -> <-].
    by rewrite (Hnormal _ _ Hcall).
  - destruct (multi m) as [r m'] eqn:Hcall. intros [= -> <-].
    by rewrite (Hmulti _ _ Hcall).
Qed.

(** [AddEdge] returns whenever the receiver and the edge are live. *)
Lemma Node_AddEdge_total (this : NodePtr) (edge : EdgePtr) (σ : Store) :
  is_Some (nodes σ !! this) -> is_Some (edges σ !! edge) ->
  is_Some (Node.AddEdge this edge σ).
Proof.
  intros [o Ho] [e He]. unfold Node.AddEdge. rewrite Ho, He. simpl.
  destruct (Node.dispatch _ _ o). by eexists.
Qed.

(** [AddEdge] writes to its receiver only. *)
Lemma Node_AddEdge_frame (this : NodePtr) (edge : EdgePtr) (σ σ' : Store)
    (success : bool) :
  Node.AddEdge this edge σ = Some (success, σ') ->
  edges σ' = edges σ
  /\ forall other, this ≠ other -> nodes σ' !! other = nodes σ !! other.
Proof.
  unfold Node.AddEdge. intros Hcall.
  destruct (nodes σ !! this) as [o|]; [|done].
  destruct (edges σ !! edge) as [e|]; [|done]. simpl in Hcall.
  destruct (Node.dispatch _ _ o) as [r o']. injection Hcall as -> <-.
  split; [done|]. intros other Hne. by apply update_lookup_other.
Qed.

End StoreCalls.

(** C6: a call of [AddEdge] that returns false leaves the edge storage of the
    node as it was: for [MultiOutputNode::AddEdge] the receiver is unchanged,
    for [NormalNode::AddEdge] the receiver (output set and held input) is
    unchanged, and for a virtual call on any node of the store the whole
    store is unchanged. *)
Theorem AddEdge_false_changes_nothing
    (this : NodePtr) (edge : EdgePtr) (σ σ' : Store) :
  Node.AddEdge this edge σ = Some (false, σ') ->
  σ' = σ
  /\ (forall o, nodes σ !! this = Some o ->
        exists o', nodes σ' !! this = Some o'
                   /\ Node.outputs o' = Node.outputs o
                   /\ Node.sources o' = Node.sources o)
  /\ (forall (e : Edge) (m m' : MultiOutputNode),
        MultiOutputNode.AddEdge this edge e m = (false, m') ->
        outputs_ m' = outputs_ m)
  /\ (forall (e : Edge) (n n' : NormalNode),
        NormalNode.AddEdge this edge e n = (false, n') ->
        outputs_ n' = outputs_ n /\ input_ n' = input_ n).
Proof.
  intros Hcall.
  assert (σ' = σ) as ->.
  { unfold Node.AddEdge in Hcall.
    destruct (nodes σ !! this) as [o|] eqn:Ho; [|done].
    destruct (edges σ !! edge) as [e|]; [|done]. simpl in Hcall.
    destruct (Node.dispatch _ _ o) as [r o'] eqn:Hd.
    injection Hcall as -> <-.
    apply dispatch_false in Hd as ->.
    - by apply update_same.
    - apply NormalNode_AddEdge_false.
    - apply MultiOutputNode_AddEdge_false. }
  split; [done|]. split; [by eauto|]. split.
  - by intros e m m' ->%MultiOutputNode_AddEdge_false.
  - by intros e n n' ->%NormalNode_AddEdge_false.
Qed.

(** Signal [a] is no endpoint of edge [e2]: the call fails and the store is
    the one it was. *)
Lemma AddEdge_false_changes_nothing_witness :
  Node.AddEdge Example.a Example.e2 Example.initial
  = Some (false, Example.initial).
Proof.
  assert (Node.AddEdge Example.a Example.e2 Example.initial
          = Some (false,
                  Node.update Example.a (ASignal (Signal.Make "a" Example.bit))
                    Example.initial)) as Hcall
    by (vm_compute; reflexivity).
  destruct (AddEdge_false_changes_nothing _ _ _ _ Hcall) as [Hsame _].
  rewrite Hsame in Hcall. exact Hcall.
Defined.

(** ** Copies *)

Lemma Copy_object_no_edges (o : Object) :
  Node.sources (Node.Copy_object o) = []
  /\ Node.outputs (Node.Copy_object o) = [].
Proof. by destruct o. Qed.

Lemma Copy_object_same_identity (o : Object) :
  name (Node.base (Node.Copy_object o)) = name (Node.base o)
  /\ type_ (Node.base (Node.Copy_object o)) = type_ (Node.base o)
  /\ same_attributes o (Node.Copy_object o).
Proof. by destruct o. Qed.

(** C7: [Copy()] on a live node returns a node at an address that was not in
    use; the original is still what it was; the copy has no sources and no
    outputs, whatever edges the original holds, and has the name and the type
    of the original, its direction if it is a port and its default literal
    if it is a parameter. *)
Theorem Copy_carries_identity_but_no_edges
    (this : NodePtr) (o : Object) (σ : Store) :
  nodes σ !! this = Some o ->
  exists (copy : NodePtr) (c : Object) (σ' : Store),
    Node.Copy this σ = Some (copy, σ')
    /\ nodes σ !! copy = None
    /\ nodes σ' !! copy = Some c
    /\ nodes σ' !! this = Some o
    /\ edges σ' = edges σ
    /\ Node.sources c = []
    /\ Node.outputs c = []
    /\ name (Node.base c) = name (Node.base o)
    /\ type_ (Node.base c) = type_ (Node.base o)
    /\ same_attributes o c.
Proof.
  intros Hthis.
  set (copy := fresh (dom (nodes σ))).
  assert (nodes σ !! copy = None) as Hfresh
    by apply not_elem_of_dom, is_fresh.
  exists copy, (Node.Copy_object o), (Node.update copy (Node.Copy_object o) σ).
  split; [unfold Node.Copy; by rewrite Hthis|].
  split; [done|]. split; [apply update_lookup|].
  split; [rewrite update_lookup_other; [done|congruence]|].
  split; [done|].
  destruct (Copy_object_no_edges o) as [-> ->].
  destruct (Copy_object_same_identity o) as (-> & -> & Hattr).
  done.
Qed.

(** The port [b] of the connected example has the source [e1]; its copy is
    allocated at a new address and has no source. *)
Lemma Copy_carries_identity_but_no_edges_witness :
  exists (b : Port) (copy : NodePtr) (c : Object) (σ' : Store),
    nodes Example.connected !! Example.b = Some (APort b)
    /\ Node.sources (APort b) = [Example.e1]
    /\ Node.Copy Example.b Example.connected = Some (copy, σ')
    /\ nodes σ' !! copy = Some c
    /\ Node.sources c = []
    /\ same_attributes (APort b) c.
Proof.
  set (b := mkPort (mkNormalNode (MultiOutputNode.ctor "b" PORT Example.bit)
                      (Some Example.e1)) Term.OUT).
  assert (nodes Example.connected !! Example.b = Some (APort b)) as Hb
    by (vm_compute; reflexivity).
  destruct (Copy_carries_identity_but_no_edges _ _ _ Hb)
    as (copy & c & σ' & Hcopy & _ & Hc & _ & _ & Hsrc & _ & _ & _ & Hattr).
  exists b, copy, c, σ'. repeat split; assumption.
Defined.

(** ** Parameters *)

(** C4: [Parameter::val()] is the source of the input edge when the parameter
    has one, with or without a default; the default literal when there is no
    input edge and a default was given; and no value when there is
    neither. *)
Theorem Parameter_val_input_then_default (σ : Store) (self : Parameter_) :
  (forall (edge : EdgePtr) (e : Edge),
     input_ self = Some edge -> edges σ !! edge = Some e ->
     Parameter_.val σ self = Some (src e))
  /\ (forall lit : NodePtr,
        input_ self = None -> default_value_ self = Some lit ->
        Parameter_.val σ self = Some (Some lit))
  /\ (input_ self = None -> default_value_ self = None ->
      Parameter_.val σ self = Some None).
Proof.
  unfold Parameter_.val, NormalNode.input. repeat split.
  - intros edge e -> He. by rewrite He.
  - by intros lit -> ->.
  - by intros -> ->.
Qed.

(** In the example: a parameter with default [l] whose input is [e4] resolves
    to [a], the source of [e4]; without the input it resolves to [l]; without
    input and default it has no value. *)
Lemma Parameter_val_input_then_default_witness :
  Parameter_.val Example.initial
    (mkParameter
       (mkNormalNode (MultiOutputNode.ctor "p" PARAMETER Example.integer)
          (Some Example.e4))
       (Some Example.l))
  = Some (Some Example.a)
  /\ Parameter_.val Example.initial
       (Parameter_.Make "p" Example.integer (Some Example.l))
     = Some (Some Example.l)
  /\ Parameter_.val Example.initial (Parameter_.Make "p" Example.integer None)
     = Some None.
Proof.
  split; [|split].
  - destruct (Parameter_val_input_then_default Example.initial
                (mkParameter
                   (mkNormalNode
                      (MultiOutputNode.ctor "p" PARAMETER Example.integer)
                      (Some Example.e4))
                   (Some Example.l))) as (Hinput & _ & _).
    apply (Hinput Example.e4 (mkEdge (Some Example.a) (Some Example.p)));
      reflexivity.
  - destruct (Parameter_val_input_then_default Example.initial
                (Parameter_.Make "p" Example.integer (Some Example.l)))
      as (_ & Hdefault & _).
    apply Hdefault; reflexivity.
  - destruct (Parameter_val_input_then_default Example.initial
                (Parameter_.Make "p" Example.integer None))
      as (_ & _ & Hnone).
    apply Hnone; reflexivity.
Defined.

(** ** Literals cannot be driven *)

Lemma AddSource_each_fails (this : NodePtr) (sources : list NodePtr)
    (σ : Store) :
  AddSource_each this sources σ = (replicate (length sources) cannot_drive, σ).
Proof.
  induction sources as [|source rest IH]; simpl; [done|].
  by rewrite IH.
Qed.

(** C3: [Literal::AddSource] throws for every literal, every candidate source
    and every store, and leaves the store as it was, so that no edge is
    created and no node registers one; however many times it is called, no
    call returns an edge. *)
Theorem Literal_AddSource_always_throws
    (this source : NodePtr) (sources : list NodePtr) (σ : Store) :
  Literal.AddSource this source σ
  = (inl (runtime_error "Cannot drive a literal node."), σ)
  /\ (forall edge : EdgePtr, (Literal.AddSource this source σ).1 ≠ inr edge)
  /\ (AddSource_each this sources σ).2 = σ
  /\ length (AddSource_each this sources σ).1 = length sources
  /\ Forall (fun r => r = inl (runtime_error "Cannot drive a literal node."))
       (AddSource_each this sources σ).1.
Proof.
  rewrite AddSource_each_fails. simpl. repeat split.
  - done.
  - apply length_replicate.
  - apply Forall_forall. by intros r [-> _]%elem_of_replicate.
Qed.

(** ** Rendering of literals *)

(** The text of [std::to_string] reads back as the number it was made from. *)
Lemma to_string_reads_back (value : Z) :
  Z.of_int <$> NilZero.int_of_string (to_string value) = Some value.
Proof.
  unfold to_string. rewrite NilZero.isi.
  - simpl. f_equal. apply DecimalZ.of_to.
  - destruct value; simpl; try discriminate.
    intros [= Hnil]. by apply DecimalPos.Unsigned.to_uint_nonnil in Hnil.
  - destruct value; simpl; try discriminate.
    intros [= Hnil]. by apply DecimalPos.Unsigned.to_uint_nonnil in Hnil.
Qed.

Lemma to_string_inj (x y : Z) : to_string x = to_string y -> x = y.
Proof.
  intros Heq. pose proof (to_string_reads_back x) as Hx.
  rewrite Heq, to_string_reads_back in Hx. congruence.
Qed.

(** C8, as stated, does not hold: the boolean literal made by
    [Literal::Make(name, type, true)] renders as the text 1, not as the word
    true. *)
Lemma boolean_literal_not_rendered_as_word : ~ literal_renders_boolean_as_word.
Proof.
  intros [Hbool _].
  specialize (Hbool "t" 1%positive true).
  vm_compute in Hbool. discriminate Hbool.
Qed.

(** C8, amended: [Literal::ToString] follows the discriminant that the
    constructor stamped.  A boolean literal renders as the decimal text of
    its value promoted to [int], 1 for true and 0 for false; an integer
    literal renders as its decimal text, 42 as the text 42; a string literal
    renders as its value, foo as foo.  The name and the type of the literal
    play no part. *)
Theorem Literal_ToString_by_storage_kind (name : string) (type : TypePtr) :
  (forall value : bool,
     storage_type_ (Literal.Make_bool name type value) = BOOL
     /\ Literal.ToString (Literal.Make_bool name type value)
        = to_string (Z.b2z value))
  /\ Literal.ToString (Literal.Make_bool name type true) = "1"
  /\ Literal.ToString (Literal.Make_bool name type false) = "0"
  /\ (forall value : Z,
        storage_type_ (Literal.Make_int name type value) = INT
        /\ Literal.ToString (Literal.Make_int name type value)
           = to_string value
        /\ Z.of_int <$> NilZero.int_of_string
                          (Literal.ToString (Literal.Make_int name type value))
           = Some value)
  /\ Literal.ToString (Literal.Make_int name type 42) = "42"
  /\ Literal.ToString (Literal.Make_of_int type 42) = "42"
  /\ (forall value : string,
        storage_type_ (Literal.Make_string name type value) = STRING
        /\ Literal.ToString (Literal.Make_string name type value) = value
        /\ Literal.ToString (Literal.Make_type_string type value) = value
        /\ Literal.ToString (Literal.Make_of_string type value) = value)
  /\ Literal.ToString (Literal.Make_string name type "foo") = "foo"
  /\ (forall l : Literal,
        storage_type_ (Literal.Copy l) = storage_type_ l
        /\ Literal.ToString (Literal.Copy l) = Literal.ToString l).
Proof.
  split; [done|]. split; [done|]. split; [done|].
  split.
  { intros value. split; [done|]. split; [done|].
    apply to_string_reads_back. }
  split; [done|]. split; [done|]. split; [done|]. split; [done|].
  by intros [].
Qed.

(** ** Output sets hold no edge twice *)

Lemma NormalNode_AddEdge_NoDup (this : NodePtr) (edge : EdgePtr) (e : Edge)
    (self : NormalNode) :
  NoDup (outputs_ self) ->
  NoDup (outputs_ (NormalNode.AddEdge this edge e self).2).
Proof.
  intros Hnd.
  destruct (decide (src e = Some this /\ edge ∉ outputs_ self))
    as [[Hsrc Hnew]|Hno].
  - rewrite NormalNode_AddEdge_as_output by done. by apply push_back_NoDup.
  - destruct (decide (dst e = Some this)) as [Hdst|Hdst].
    + by rewrite NormalNode_AddEdge_as_input.
    + by rewrite NormalNode_AddEdge_rejected.
Qed.

(** A property of output sets that both overrides keep is kept by the
    virtual call. *)
Lemma dispatch_outputs {R : Type} (P : list EdgePtr -> Prop)
    (normal : NormalNode -> R * NormalNode)
    (multi : MultiOutputNode -> R * MultiOutputNode) :
  (forall n : NormalNode, P (outputs_ n) -> P (outputs_ (normal n).2)) ->
  (forall m : MultiOutputNode,
     P (outputs_ m) -> P (outputs_ (multi m).2)) ->
  forall o, P (Node.outputs o) ->
            P (Node.outputs (Node.dispatch normal multi o).2).
Proof.
  intros Hnormal Hmulti o. unfold Node.dispatch, Node.outputs.
  destruct o as [[n d]|[n]|[n dv]|[m st sv iv bv]]; simpl; intros HP.
  - specialize (Hnormal n HP). by destruct (normal n).
  - specialize (Hnormal n HP). by destruct (normal n).
  - specialize (Hnormal n HP). by destruct (normal n).
  - specialize (Hmulti m HP). by destruct (multi m).
Qed.

Lemma Node_AddEdge_outputs_distinct (this : NodePtr) (edge : EdgePtr)
    (σ σ' : Store) (success : bool) :
  Node.AddEdge this edge σ = Some (success, σ') ->
  outputs_distinct σ -> outputs_distinct σ'.
Proof.
  unfold Node.AddEdge. intros Hcall Hσ.
  destruct (nodes σ !! this) as [o|] eqn:Ho; [|done].
  destruct (edges σ !! edge) as [e|]; [|done]. simpl in Hcall.
  pose proof (dispatch_outputs (@NoDup _)
                (NormalNode.AddEdge this edge e)
                (MultiOutputNode.AddEdge this edge e)
                (NormalNode_AddEdge_NoDup this edge e)
                (MultiOutputNode_AddEdge_NoDup this edge e)
                o (Hσ _ _ Ho)) as Hnew.
  destruct (Node.dispatch _ _ o) as [r o']. injection Hcall as -> <-.
  intros p op. destruct (decide (this = p)) as [<-|Hne].
  - rewrite update_lookup. by intros [= <-].
  - rewrite update_lookup_other by done. apply Hσ.
Qed.

(** However many edges are offered to a node, and however often the same one,
    no output set of the store ends up with a repeated entry. *)
Lemma AddEdge_each_outputs_distinct (this : NodePtr) (es : list EdgePtr) :
  forall (σ σ' : Store) (results : list bool),
    AddEdge_each this es σ = Some (results, σ') ->
    outputs_distinct σ -> outputs_distinct σ'.
Proof.
  induction es as [|edge rest IH]; intros σ σ' results; simpl.
  - by intros [= _ <-].
  - destruct (Node.AddEdge this edge σ) as [[b σ1]|] eqn:Hfirst; [|done].
    simpl.
    destruct (AddEdge_each this rest σ1) as [[bs σ2]|] eqn:Hrest; [|done].
    simpl. intros [= _ <-] Hσ.
    eapply IH; [exact Hrest|].
    eapply Node_AddEdge_outputs_distinct; eauto.
Qed.

(** Taking an input edge out again: the call finds the held edge and clears
    the input. *)
Lemma NormalNode_RemoveEdge_input (this : NodePtr) (held : EdgePtr)
    (e : Edge) (self : NormalNode) :
  input_ self = Some held -> dst e = Some this -> src e ≠ Some this ->
  NormalNode.RemoveEdge this held e self = (true, mkNormalNode self None).
Proof.
  intros Hheld Hdst Hsrc.
  unfold NormalNode.RemoveEdge, MultiOutputNode.RemoveEdge.
  destruct (src e) as [s|].
  - rewrite decide_False by congruence. simpl. rewrite Hdst, Hheld.
    by rewrite !bool_decide_eq_true_2.
  - simpl. rewrite Hdst, Hheld. by rewrite !bool_decide_eq_true_2.
Qed.

(** ** Removing outputs: [MultiOutputNode::RemoveEdge] *)

Section Erase.

Variable edge : EdgePtr.

Lemma erase_first_split (l l' : list EdgePtr) :
  erase_first edge l = Some l' ->
  exists l1 l2, l = l1 ++ edge :: l2 /\ (edge ∉ l1) /\ l' = l1 ++ l2.
Proof.
  revert l'. induction l as [|i rest IH]; intros l'; simpl; [done|].
  case_decide as Hi.
  - intros [= <-]. exists [], rest. subst i. split; [done|].
    split; [apply not_elem_of_nil|done].
  - destruct (erase_first edge rest) as [r|]; [|done]. simpl.
    intros [= <-]. destruct (IH r eq_refl) as (l1 & l2 & -> & Hl1 & ->).
    exists (i :: l1), l2. split; [done|]. split; [|done].
    apply not_elem_of_cons. split; [congruence|done].
Qed.

Lemma erase_first_absent (l : list EdgePtr) :
  edge ∉ l -> erase_first edge l = None.
Proof.
  induction l as [|i rest IH]; simpl; [done|].
  intros [Hi Hrest]%not_elem_of_cons.
  rewrite decide_False by congruence. by rewrite IH.
Qed.

Lemma erase_first_at (l1 l2 : list EdgePtr) :
  edge ∉ l1 -> erase_first edge (l1 ++ edge :: l2) = Some (l1 ++ l2).
Proof.
  induction l1 as [|i rest IH]; simpl.
  - intros _. by rewrite decide_True.
  - intros [Hi Hrest]%not_elem_of_cons.
    rewrite decide_False by congruence. by rewrite IH.
Qed.

Lemma erase_first_present (l : list EdgePtr) :
  edge ∈ l ->
  exists l1 l2, l = l1 ++ edge :: l2 /\ (edge ∉ l1)
                /\ erase_first edge l = Some (l1 ++ l2).
Proof.
  induction l as [|i rest IH]; [by intros ?%elem_of_nil|].
  intros Hin. destruct (decide (i = edge)) as [->|Hne].
  - exists [], rest. simpl. rewrite decide_True by done.
    split; [done|]. split; [apply not_elem_of_nil|done].
  - apply elem_of_cons in Hin as [->|Hin]; [done|].
    destruct (IH Hin) as (l1 & l2 & -> & Hl1 & Herase).
    exists (i :: l1), l2. split; [done|].
    split; [apply not_elem_of_cons; by split|].
    simpl. rewrite decide_False by done. by rewrite Herase.
Qed.

Lemma erase_first_sublist (l l' : list EdgePtr) :
  erase_first edge l = Some l' -> l' `sublist_of` l.
Proof.
  intros (l1 & l2 & -> & _ & ->)%erase_first_split.
  apply sublist_app; [done|]. by apply sublist_cons.
Qed.

End Erase.

Lemma entries_cons_same (edge : EdgePtr) (l : list EdgePtr) :
  entries edge (edge :: l) = S (entries edge l).
Proof. unfold entries. simpl. by destruct (Pos.eq_dec edge edge). Qed.

Lemma entries_cons_other (edge other : EdgePtr) (l : list EdgePtr) :
  other ≠ edge -> entries other (edge :: l) = entries other l.
Proof.
  intros Hne. unfold entries. simpl.
  destruct (Pos.eq_dec edge other); congruence.
Qed.

Lemma MultiOutputNode_eta (self : MultiOutputNode) :
  mkMultiOutputNode self (outputs_ self) = self.
Proof. by destruct self. Qed.

Section MultiOutputRemove.

Variables (this : NodePtr) (edge : EdgePtr) (e : Edge).

(** The two outcomes of [MultiOutputNode::RemoveEdge]. *)
Lemma MultiOutputNode_RemoveEdge_cases (self : MultiOutputNode) :
  (src e = Some this /\
   exists l1 l2, outputs_ self = l1 ++ edge :: l2 /\ (edge ∉ l1) /\
     MultiOutputNode.RemoveEdge this edge e self
     = (true, mkMultiOutputNode self (l1 ++ l2)))
  \/ (~ (src e = Some this /\ edge ∈ outputs_ self) /\
      MultiOutputNode.RemoveEdge this edge e self = (false, self)).
Proof.
  unfold MultiOutputNode.RemoveEdge.
  destruct (decide (src e = Some this)) as [Hsrc|Hsrc].
  - rewrite Hsrc, decide_True by done.
    destruct (decide (edge ∈ outputs_ self)) as [Hin|Hout].
    + left. split; [done|].
      destruct (erase_first_present edge _ Hin) as (l1 & l2 & Hl & Hl1 & ->).
      by exists l1, l2.
    + right. rewrite erase_first_absent by done. split; [|done].
      by intros [_ ?].
  - right. split; [by intros [? _]|].
    destruct (src e) as [s|]; [|done].
    rewrite decide_False; [done|congruence].
Qed.

Lemma MultiOutputNode_RemoveEdge_false (self self' : MultiOutputNode) :
  MultiOutputNode.RemoveEdge this edge e self = (false, self') -> self' = self.
Proof.
  destruct (MultiOutputNode_RemoveEdge_cases self)
    as [(_ & l1 & l2 & _ & _ & ->)|(_ & ->)]; congruence.
Qed.

Lemma MultiOutputNode_RemoveEdge_sublist (self : MultiOutputNode) :
  outputs_ (MultiOutputNode.RemoveEdge this edge e self).2
    `sublist_of` outputs_ self.
Proof.
  destruct (MultiOutputNode_RemoveEdge_cases self)
    as [(_ & l1 & l2 & Hl & _ & ->)|(_ & ->)]; simpl; [|done].
  rewrite Hl. apply sublist_app; [done|]. by apply sublist_cons.
Qed.

Lemma MultiOutputNode_RemoveEdge_absent (self : MultiOutputNode) :
  ~ (src e = Some this /\ edge ∈ outputs_ self) ->
  MultiOutputNode.RemoveEdge this edge e self = (false, self).
Proof.
  intros Hno.
  destruct (MultiOutputNode_RemoveEdge_cases self)
    as [(Hsrc & l1 & l2 & Hl & _ & _)|(_ & ->)]; [|done].
  destruct Hno. split; [done|]. rewrite Hl. set_solver.
Qed.

End MultiOutputRemove.

(** X1: [MultiOutputNode::RemoveEdge] returns true exactly when the edge's
    source is this node and the edge is in the output set.  It then erases
    the first entry of that edge and nothing else: the entries before and
    after it keep their order, the count of the edge drops by one and the
    count of every other edge stays; name, id and type are not touched.
    When it returns false the node is unchanged. *)
Theorem MultiOutputNode_RemoveEdge_erases_first_entry
    (this : NodePtr) (edge : EdgePtr) (e : Edge) (self : MultiOutputNode) :
  let '(success, self') := MultiOutputNode.RemoveEdge this edge e self in
  success = bool_decide (src e = Some this /\ edge ∈ outputs_ self)
  /\ (if success
      then exists l1 l2,
             outputs_ self = l1 ++ edge :: l2 /\ (edge ∉ l1)
             /\ outputs_ self' = l1 ++ l2
             /\ MultiOutputNode_base self' = MultiOutputNode_base self
      else self' = self)
  /\ entries edge (outputs_ self')
     = entries edge (outputs_ self) - (if success then 1 else 0)
  /\ forall other, other ≠ edge ->
       entries other (outputs_ self') = entries other (outputs_ self).
Proof.
  destruct (MultiOutputNode_RemoveEdge_cases this edge e self)
    as [(Hsrc & l1 & l2 & Hl & Hl1 & ->)|(Hno & ->)].
  - rewrite bool_decide_eq_true_2.
    2:{ split; [done|]. rewrite Hl. set_solver. }
    split; [done|]. split; [by exists l1, l2|]. simpl. rewrite Hl.
    split.
    + rewrite !entries_app, entries_cons_same. lia.
    + intros other Hne. by rewrite !entries_app, entries_cons_other.
  - rewrite bool_decide_eq_false_2 by done.
    repeat split; try done. lia.
Qed.

(** X2: an edge that [MultiOutputNode::AddEdge] has just accepted is taken
    out again by [MultiOutputNode::RemoveEdge], which returns true and gives
    back the node as it was before the two calls. *)
Theorem MultiOutputNode_AddEdge_RemoveEdge_round_trip
    (this : NodePtr) (edge : EdgePtr) (e : Edge)
    (self self1 : MultiOutputNode) :
  MultiOutputNode.AddEdge this edge e self = (true, self1) ->
  MultiOutputNode.RemoveEdge this edge e self1 = (true, self).
Proof.
  destruct (MultiOutputNode_AddEdge_cases this edge e self)
    as [(Hsrc & Hnew & ->)|(_ & ->)]; [|done].
  intros [= <-]. unfold MultiOutputNode.RemoveEdge.
  rewrite Hsrc, decide_True by done.
  rewrite push_back_outputs, erase_first_at by done. simpl.
  by rewrite app_nil_r, MultiOutputNode_eta.
Qed.

(** Signal [a] of the example takes [e1] and gives it back. *)
Lemma MultiOutputNode_AddEdge_RemoveEdge_round_trip_witness :
  MultiOutputNode.RemoveEdge Example.a Example.e1
    (mkEdge (Some Example.a) (Some Example.b))
    (mkMultiOutputNode (mkNode "a" SIGNAL Example.bit) [Example.e1])
  = (true, MultiOutputNode.ctor "a" SIGNAL Example.bit).
Proof.
  apply (MultiOutputNode_AddEdge_RemoveEdge_round_trip Example.a Example.e1
           (mkEdge (Some Example.a) (Some Example.b))
           (MultiOutputNode.ctor "a" SIGNAL Example.bit)).
  reflexivity.
Defined.

(** X3: taking an output out and adding it again moves it to the back.  On a
    node whose output set has no repeated entry, if
    [MultiOutputNode::RemoveEdge] returns true then
    [MultiOutputNode::AddEdge] with the same edge returns true, and the
    output set is the old one with that edge moved behind all others. *)
Theorem MultiOutputNode_RemoveEdge_AddEdge_moves_to_back
    (this : NodePtr) (edge : EdgePtr) (e : Edge)
    (self self1 : MultiOutputNode) :
  NoDup (outputs_ self) ->
  MultiOutputNode.RemoveEdge this edge e self = (true, self1) ->
  exists l1 l2 self2,
    outputs_ self = l1 ++ edge :: l2
    /\ MultiOutputNode.AddEdge this edge e self1 = (true, self2)
    /\ outputs_ self2 = l1 ++ l2 ++ [edge]
    /\ outputs_ self2 ≡ₚ outputs_ self.
Proof.
  intros Hnd.
  destruct (MultiOutputNode_RemoveEdge_cases this edge e self)
    as [(Hsrc & l1 & l2 & Hl & Hl1 & ->)|(_ & ->)]; [|done].
  intros [= <-]. exists l1, l2. eexists. split; [done|].
  rewrite Hl in Hnd. apply NoDup_app in Hnd as (_ & Hl12 & Hnd2).
  apply NoDup_cons in Hnd2 as [Hl2 _].
  rewrite MultiOutputNode_AddEdge_accept; simpl;
    [|done|apply not_elem_of_app; by split].
  split; [done|]. rewrite push_back_outputs. simpl.
  split; [by rewrite <- app_assoc|].
  rewrite Hl, <- app_assoc. apply Permutation_app_head.
  symmetry. apply Permutation_cons_append.
Qed.

(** A node driving [e1] then [e2] drives [e2] then [e1] afterwards. *)
Lemma MultiOutputNode_RemoveEdge_AddEdge_moves_to_back_witness :
  exists l1 l2 self2,
    [Example.e1; Example.e2] = l1 ++ Example.e1 :: l2
    /\ MultiOutputNode.AddEdge Example.a Example.e1
         (mkEdge (Some Example.a) (Some Example.b))
         (mkMultiOutputNode (mkNode "a" SIGNAL Example.bit) [Example.e2])
       = (true, self2)
    /\ outputs_ self2 = l1 ++ l2 ++ [Example.e1]
    /\ outputs_ self2 ≡ₚ [Example.e1; Example.e2].
Proof.
  apply (MultiOutputNode_RemoveEdge_AddEdge_moves_to_back Example.a
           Example.e1 (mkEdge (Some Example.a) (Some Example.b))
           (mkMultiOutputNode (mkNode "a" SIGNAL Example.bit)
              [Example.e1; Example.e2])).
  - apply NoDup_cons. split; [|apply NoDup_singleton].
    intros Hin%list_elem_of_singleton. discriminate Hin.
  - reflexivity.
Defined.

(** ** Removing edges from a [NormalNode] *)

Section NormalRemove.

Variables (this : NodePtr) (edge : EdgePtr) (e : Edge).

(** The edge is one of the outputs: it is erased there and the input stays. *)
Lemma NormalNode_RemoveEdge_as_output (self : NormalNode) (l1 l2 : list EdgePtr) :
  src e = Some this -> outputs_ self = l1 ++ edge :: l2 -> edge ∉ l1 ->
  NormalNode.RemoveEdge this edge e self
  = (true, mkNormalNode (mkMultiOutputNode self (l1 ++ l2)) (input_ self)).
Proof.
  intros Hsrc Hl Hl1.
  unfold NormalNode.RemoveEdge, MultiOutputNode.RemoveEdge.
  rewrite Hsrc, decide_True, Hl, erase_first_at by done. simpl.
  by destruct (dst e).
Qed.

(** The edge is not removed as an output and is the held input: the input is
    cleared. *)
Lemma NormalNode_RemoveEdge_as_input (self : NormalNode) :
  ~ (src e = Some this /\ edge ∈ outputs_ self) ->
  dst e = Some this -> input_ self = Some edge ->
  NormalNode.RemoveEdge this edge e self = (true, mkNormalNode self None).
Proof.
  intros Hno Hdst Hheld. unfold NormalNode.RemoveEdge.
  rewrite MultiOutputNode_RemoveEdge_absent by done. simpl.
  rewrite Hdst, Hheld. by rewrite !bool_decide_eq_true_2.
Qed.

Lemma NormalNode_RemoveEdge_rejected (self : NormalNode) :
  ~ (src e = Some this /\ edge ∈ outputs_ self) ->
  ~ (dst e = Some this /\ input_ self = Some edge) ->
  NormalNode.RemoveEdge this edge e self = (false, self).
Proof.
  intros Hno Hin. unfold NormalNode.RemoveEdge.
  rewrite MultiOutputNode_RemoveEdge_absent by done. simpl.
  rewrite NormalNode_eta. destruct (dst e) as [d|]; [|done].
  case_bool_decide as Hd; [|done]. case_bool_decide as Hheld; [|done].
  destruct Hin. by subst d.
Qed.

(** The three outcomes are the only ones. *)
Lemma NormalNode_RemoveEdge_cases (self : NormalNode) :
  (src e = Some this /\
   exists l1 l2, outputs_ self = l1 ++ edge :: l2 /\ (edge ∉ l1) /\
     NormalNode.RemoveEdge this edge e self
     = (true, mkNormalNode (mkMultiOutputNode self (l1 ++ l2)) (input_ self)))
  \/ (~ (src e = Some this /\ edge ∈ outputs_ self) /\
      dst e = Some this /\ input_ self = Some edge /\
      NormalNode.RemoveEdge this edge e self = (true, mkNormalNode self None))
  \/ (~ (src e = Some this /\ edge ∈ outputs_ self) /\
      ~ (dst e = Some this /\ input_ self = Some edge) /\
      NormalNode.RemoveEdge this edge e self = (false, self)).
Proof.
  destruct (decide (src e = Some this /\ edge ∈ outputs_ self))
    as [[Hsrc Hin]|Hno].
  - left. split; [done|].
    destruct (erase_first_present edge _ Hin) as (l1 & l2 & Hl & Hl1 & _).
    exists l1, l2. auto using NormalNode_RemoveEdge_as_output.
  - right.
    destruct (decide (dst e = Some this /\ input_ self = Some edge))
      as [[Hdst Hheld]|Hin].
    + left. auto using NormalNode_RemoveEdge_as_input.
    + right. auto using NormalNode_RemoveEdge_rejected.
Qed.

Lemma NormalNode_RemoveEdge_false (self self' : NormalNode) :
  NormalNode.RemoveEdge this edge e self = (false, self') -> self' = self.
Proof.
  destruct (NormalNode_RemoveEdge_cases self)
    as [(_ & l1 & l2 & _ & _ & ->)|[(_ & _ & _ & ->)|(_ & _ & ->)]];
    congruence.
Qed.

End NormalRemove.

(** X4: [NormalNode::RemoveEdge] looks at the outputs first.  It returns true
    when [MultiOutputNode::RemoveEdge] removed the edge from the outputs, and
    then the input is kept even if it is that same edge; otherwise it returns
    true exactly when the edge ends in this node and is the held input, which
    it clears.  An edge that ends here but is not the held input clears
    nothing.  When the result is false the node is unchanged. *)
Theorem NormalNode_RemoveEdge_output_before_input
    (this : NodePtr) (edge : EdgePtr) (e : Edge) (self : NormalNode) :
  let '(as_output, base) := MultiOutputNode.RemoveEdge this edge e self in
  let '(success, self') := NormalNode.RemoveEdge this edge e self in
  success
  = as_output || bool_decide (dst e = Some this /\ input_ self = Some edge)
  /\ NormalNode_base self' = base
  /\ input_ self'
     = (if as_output then input_ self
        else if bool_decide (dst e = Some this /\ input_ self = Some edge)
             then None
             else input_ self)
  /\ (if success then True else self' = self).
Proof.
  destruct (NormalNode_RemoveEdge_cases this edge e self)
    as [(Hsrc & l1 & l2 & Hl & Hl1 & ->)|[(Hno & Hdst & Hheld & ->)
                                          |(Hno & Hin & ->)]].
  - unfold MultiOutputNode.RemoveEdge.
    rewrite Hsrc, decide_True, Hl, erase_first_at by done. done.
  - rewrite MultiOutputNode_RemoveEdge_absent by done.
    by rewrite bool_decide_eq_true_2.
  - rewrite MultiOutputNode_RemoveEdge_absent by done.
    by rewrite bool_decide_eq_false_2.
Qed.

(** X5: on a node without an input, an edge that [NormalNode::AddEdge] takes
    as the input (it ends in this node and starts elsewhere) is released by
    [NormalNode::RemoveEdge], which returns true and gives back the node as
    it was. *)
Theorem NormalNode_input_AddEdge_RemoveEdge_round_trip
    (this : NodePtr) (edge : EdgePtr) (e : Edge) (self : NormalNode) :
  input_ self = None -> dst e = Some this -> src e ≠ Some this ->
  exists self1,
    NormalNode.AddEdge this edge e self = (true, self1)
    /\ NormalNode.sources self1 = [edge]
    /\ NormalNode.RemoveEdge this edge e self1 = (true, self).
Proof.
  intros Hnone Hdst Hsrc.
  exists (mkNormalNode self (Some edge)).
  split; [apply NormalNode_AddEdge_as_input; [by intros [? _]|done]|].
  split; [done|].
  rewrite NormalNode_RemoveEdge_as_input; try done; [|by intros [? _]].
  simpl. by rewrite <- Hnone, NormalNode_eta.
Qed.

(** Port [b] of the example takes [e1] from [a] and releases it. *)
Lemma NormalNode_input_AddEdge_RemoveEdge_round_trip_witness :
  exists self1,
    NormalNode.AddEdge Example.b Example.e1
      (mkEdge (Some Example.a) (Some Example.b))
      (NormalNode.ctor "b" PORT Example.bit)
    = (true, self1)
    /\ NormalNode.sources self1 = [Example.e1]
    /\ NormalNode.RemoveEdge Example.b Example.e1
         (mkEdge (Some Example.a) (Some Example.b)) self1
       = (true, NormalNode.ctor "b" PORT Example.bit).
Proof.
  apply (NormalNode_input_AddEdge_RemoveEdge_round_trip Example.b Example.e1
           (mkEdge (Some Example.a) (Some Example.b))
           (NormalNode.ctor "b" PORT Example.bit)).
  - reflexivity.
  - reflexivity.
  - discriminate.
Defined.

(** X6: an edge from a node to itself needs two calls on each way.  The first
    [NormalNode::AddEdge] registers it as an output only, the second as the
    input, replacing the held one; further calls return true and change
    nothing.  The first [NormalNode::RemoveEdge] then erases the output and
    keeps the input, the second clears the input, the third returns
    false. *)
Theorem NormalNode_self_loop_two_calls
    (this : NodePtr) (edge : EdgePtr) (e : Edge) (self : NormalNode) :
  src e = Some this -> dst e = Some this -> edge ∉ outputs_ self ->
  let n1 := mkNormalNode (MultiOutputNode.push_back edge self) (input_ self) in
  let n2 := mkNormalNode (MultiOutputNode.push_back edge self) (Some edge) in
  let n3 := mkNormalNode self (Some edge) in
  let n4 := mkNormalNode self None in
  NormalNode.AddEdge this edge e self = (true, n1)
  /\ NormalNode.AddEdge this edge e n1 = (true, n2)
  /\ NormalNode.AddEdge this edge e n2 = (true, n2)
  /\ NormalNode.RemoveEdge this edge e n2 = (true, n3)
  /\ NormalNode.RemoveEdge this edge e n3 = (true, n4)
  /\ NormalNode.RemoveEdge this edge e n4 = (false, n4).
Proof.
  intros Hsrc Hdst Hnew. simpl.
  assert (edge ∈ outputs_ (MultiOutputNode.push_back edge self)) as Hin
    by (rewrite push_back_outputs; apply elem_of_app; right;
        by apply list_elem_of_singleton).
  split; [by apply NormalNode_AddEdge_as_output|].
  split.
  { rewrite NormalNode_AddEdge_as_input; [done|by intros [_ ?]|done]. }
  split.
  { rewrite NormalNode_AddEdge_as_input; [done|by intros [_ ?]|done]. }
  split.
  { rewrite (NormalNode_RemoveEdge_as_output this edge e _ (outputs_ self) []);
      try done.
    simpl. by rewrite app_nil_r, MultiOutputNode_eta. }
  split.
  { rewrite NormalNode_RemoveEdge_as_input; [done|by intros [_ ?]|done..]. }
  rewrite NormalNode_RemoveEdge_rejected; [done|by intros [_ ?]..].
Qed.

(** A fresh signal with an edge [e1] from itself to itself. *)
Lemma NormalNode_self_loop_two_calls_witness :
  let loop := mkEdge (Some Example.a) (Some Example.a) in
  let n0 := NormalNode.ctor "a" SIGNAL Example.bit in
  let n1 := mkNormalNode (MultiOutputNode.push_back Example.e1 n0) None in
  let n2 := mkNormalNode (MultiOutputNode.push_back Example.e1 n0)
              (Some Example.e1) in
  NormalNode.AddEdge Example.a Example.e1 loop n0 = (true, n1)
  /\ NormalNode.AddEdge Example.a Example.e1 loop n1 = (true, n2).
Proof.
  destruct (NormalNode_self_loop_two_calls Example.a Example.e1
              (mkEdge (Some Example.a) (Some Example.a))
              (NormalNode.ctor "a" SIGNAL Example.bit)
              eq_refl eq_refl (not_elem_of_nil _))
    as (Hfirst & Hsecond & _).
  split; [exact Hfirst|exact Hsecond].
Defined.

(** X7: a virtual [RemoveEdge] call that returns false leaves the whole store
    as it was, for a node of any class. *)
Theorem RemoveEdge_false_changes_nothing
    (this : NodePtr) (edge : EdgePtr) (σ σ' : Store) :
  Node.RemoveEdge this edge σ = Some (false, σ') -> σ' = σ.
Proof.
  unfold Node.RemoveEdge. intros Hcall.
  destruct (nodes σ !! this) as [o|] eqn:Ho; [|done].
  destruct (edges σ !! edge) as [e|]; [|done]. simpl in Hcall.
  destruct (Node.dispatch _ _ o) as [r o'] eqn:Hd.
  injection Hcall as -> <-.
  apply dispatch_false in Hd as ->.
  - by apply update_same.
  - apply NormalNode_RemoveEdge_false.
  - apply MultiOutputNode_RemoveEdge_false.
Qed.

(** Nothing has been registered in the example: removing [e1] from [a]
    fails. *)
Lemma RemoveEdge_false_changes_nothing_witness :
  Node.RemoveEdge Example.a Example.e1 Example.initial
  = Some (false, Example.initial).
Proof.
  assert (Node.RemoveEdge Example.a Example.e1 Example.initial
          = Some (false,
                  Node.update Example.a (ASignal (Signal.Make "a" Example.bit))
                    Example.initial)) as Hcall
    by (vm_compute; reflexivity).
  pose proof (RemoveEdge_false_changes_nothing _ _ _ _ Hcall) as Hsame.
  rewrite Hsame in Hcall. exact Hcall.
Defined.

(** ** What any sequence of calls keeps true of the store *)

(** How the edge lists of an object relate before and after a virtual call,
    read off the two overrides. *)
Lemma dispatch_edges {R : Type}
    (P : list EdgePtr -> list EdgePtr -> list EdgePtr -> list EdgePtr -> Prop)
    (normal : NormalNode -> R * NormalNode)
    (multi : MultiOutputNode -> R * MultiOutputNode) :
  (forall n : NormalNode,
     P (outputs_ n) (NormalNode.sources n)
       (outputs_ (normal n).2) (NormalNode.sources (normal n).2)) ->
  (forall m : MultiOutputNode, P (outputs_ m) [] (outputs_ (multi m).2) []) ->
  forall o,
    P (Node.outputs o) (Node.sources o)
      (Node.outputs (Node.dispatch normal multi o).2)
      (Node.sources (Node.dispatch normal multi o).2).
Proof.
  intros Hnormal Hmulti o. unfold Node.dispatch, Node.outputs, Node.sources.
  destruct o as [[n d]|[n]|[n dv]|[m st sv iv bv]]; simpl.
  - specialize (Hnormal n). by destruct (normal n).
  - specialize (Hnormal n). by destruct (normal n).
  - specialize (Hnormal n). by destruct (normal n).
  - specialize (Hmulti m). by destruct (multi m).
Qed.

Section CallEffects.

Variables (this : NodePtr) (edge : EdgePtr).

Lemma NormalNode_AddEdge_added (e : Edge) (n : NormalNode) :
  added this edge e (outputs_ n) (NormalNode.sources n)
    (outputs_ (NormalNode.AddEdge this edge e n).2)
    (NormalNode.sources (NormalNode.AddEdge this edge e n).2).
Proof.
  unfold added.
  destruct (decide (src e = Some this /\ edge ∉ outputs_ n))
    as [[Hsrc Hnew]|Hno].
  - rewrite NormalNode_AddEdge_as_output by done. simpl. auto.
  - destruct (decide (dst e = Some this)) as [Hdst|Hdst].
    + rewrite NormalNode_AddEdge_as_input by done. simpl. auto.
    + rewrite NormalNode_AddEdge_rejected by done. simpl. auto.
Qed.

Lemma MultiOutputNode_AddEdge_added (e : Edge) (m : MultiOutputNode) :
  added this edge e (outputs_ m) []
    (outputs_ (MultiOutputNode.AddEdge this edge e m).2) [].
Proof.
  unfold added.
  destruct (MultiOutputNode_AddEdge_cases this edge e m)
    as [(Hsrc & _ & ->)|(_ & ->)]; simpl; auto.
Qed.

Lemma NormalNode_RemoveEdge_removed (e : Edge) (n : NormalNode) :
  removed (outputs_ n) (NormalNode.sources n)
    (outputs_ (NormalNode.RemoveEdge this edge e n).2)
    (NormalNode.sources (NormalNode.RemoveEdge this edge e n).2).
Proof.
  unfold removed.
  destruct (NormalNode_RemoveEdge_cases this edge e n)
    as [(_ & l1 & l2 & Hl & _ & ->)|[(_ & _ & _ & ->)|(_ & _ & ->)]];
    simpl; [|by auto..].
  split; [|by left]. rewrite Hl. apply sublist_app; [done|].
  by apply sublist_cons.
Qed.

Lemma MultiOutputNode_RemoveEdge_removed (e : Edge) (m : MultiOutputNode) :
  removed (outputs_ m) []
    (outputs_ (MultiOutputNode.RemoveEdge this edge e m).2) [].
Proof.
  split; [apply MultiOutputNode_RemoveEdge_sublist|by left].
Qed.

(** A virtual [AddEdge] that returns: the receiver and the edge were live,
    only the receiver was written, and its edge lists grew as [added] says. *)
Lemma Node_AddEdge_inv (σ σ' : Store) (success : bool) :
  Node.AddEdge this edge σ = Some (success, σ') ->
  exists o o' e,
    nodes σ !! this = Some o /\ edges σ !! edge = Some e
    /\ σ' = Node.update this o' σ
    /\ added this edge e (Node.outputs o) (Node.sources o)
         (Node.outputs o') (Node.sources o').
Proof.
  unfold Node.AddEdge. intros Hcall.
  destruct (nodes σ !! this) as [o|] eqn:Ho; [|done].
  destruct (edges σ !! edge) as [e|] eqn:He; [|done]. simpl in Hcall.
  pose proof (dispatch_edges (added this edge e) _ _
                (NormalNode_AddEdge_added e)
                (MultiOutputNode_AddEdge_added e) o) as Hadded.
  destruct (Node.dispatch _ _ o) as [r o']. injection Hcall as -> <-.
  by exists o, o', e.
Qed.

Lemma Node_RemoveEdge_inv (σ σ' : Store) (success : bool) :
  Node.RemoveEdge this edge σ = Some (success, σ') ->
  exists o o',
    nodes σ !! this = Some o /\ σ' = Node.update this o' σ
    /\ removed (Node.outputs o) (Node.sources o)
         (Node.outputs o') (Node.sources o').
Proof.
  unfold Node.RemoveEdge. intros Hcall.
  destruct (nodes σ !! this) as [o|] eqn:Ho; [|done].
  destruct (edges σ !! edge) as [e|] eqn:He; [|done]. simpl in Hcall.
  pose proof (dispatch_edges removed _ _
                (NormalNode_RemoveEdge_removed e)
                (MultiOutputNode_RemoveEdge_removed e) o) as Hremoved.
  destruct (Node.dispatch _ _ o) as [r o']. injection Hcall as -> <-.
  by exists o, o'.
Qed.

End CallEffects.

Lemma Node_Copy_inv (this : NodePtr) (σ σ' : Store) (copy : NodePtr) :
  Node.Copy this σ = Some (copy, σ') ->
  exists o, nodes σ !! this = Some o /\ nodes σ !! copy = None
            /\ σ' = Node.update copy (Node.Copy_object o) σ.
Proof.
  unfold Node.Copy. destruct (nodes σ !! this) as [o|]; [|done]. simpl.
  intros [= <- <-]. exists o. split; [done|]. split; [|done].
  apply not_elem_of_dom, is_fresh.
Qed.

(** The objects of an updated store: the written one and the old others. *)
Lemma update_lookup_cases (this p : NodePtr) (o o' : Object) (σ : Store) :
  nodes (Node.update this o' σ) !! p = Some o ->
  (p = this /\ o = o') \/ (p ≠ this /\ nodes σ !! p = Some o).
Proof.
  destruct (decide (this = p)) as [<-|Hne].
  - rewrite update_lookup. intros [= <-]. by left.
  - rewrite update_lookup_other by done. right. split; [congruence|done].
Qed.

Section Invariants.

Lemma call_endpoints_consistent (c : Call) (σ σ' : Store) :
  call c σ = Some σ' -> endpoints_consistent σ -> endpoints_consistent σ'.
Proof.
  intros Hcall Hσ. destruct c as [this edge|this edge|this]; simpl in Hcall.
  - destruct (Node.AddEdge this edge σ) as [[b σ1]|] eqn:Hadd; [|done].
    injection Hcall as <-.
    apply Node_AddEdge_inv in Hadd
      as (o & o' & e & Ho & He & -> & Houts & Hsrcs).
    intros p op [[-> ->] | [Hne Hp]]%update_lookup_cases; [|by apply Hσ].
    destruct (Hσ _ _ Ho) as [Hout Hin]. split; intros x Hx.
    + destruct Houts as [Heq|[Hsrc Heq]]; rewrite Heq in Hx; [by apply Hout|].
      apply elem_of_app in Hx as [Hx | ->%list_elem_of_singleton];
        [by apply Hout|by exists e].
    + destruct Hsrcs as [Heq|[Hdst Heq]]; rewrite Heq in Hx; [by apply Hin|].
      apply list_elem_of_singleton in Hx as ->. by exists e.
  - destruct (Node.RemoveEdge this edge σ) as [[b σ1]|] eqn:Hrem; [|done].
    injection Hcall as <-.
    apply Node_RemoveEdge_inv in Hrem as (o & o' & Ho & -> & Hsub & Hsrcs).
    intros p op [[-> ->] | [Hne Hp]]%update_lookup_cases; [|by apply Hσ].
    destruct (Hσ _ _ Ho) as [Hout Hin]. split; intros x Hx.
    + apply Hout. by eapply elem_of_sublist.
    + destruct Hsrcs as [Heq|Heq]; rewrite Heq in Hx; [by apply Hin|].
      by apply elem_of_nil in Hx.
  - destruct (Node.Copy this σ) as [[copy σ1]|] eqn:Hcopy; [|done].
    injection Hcall as <-.
    apply Node_Copy_inv in Hcopy as (o & Ho & Hfresh & ->).
    intros p op [[-> ->] | [Hne Hp]]%update_lookup_cases; [|by apply Hσ].
    destruct (Copy_object_no_edges o) as [-> ->].
    split; intros x Hx; by apply elem_of_nil in Hx.
Qed.

Lemma call_outputs_distinct (c : Call) (σ σ' : Store) :
  call c σ = Some σ' -> outputs_distinct σ -> outputs_distinct σ'.
Proof.
  intros Hcall Hσ. destruct c as [this edge|this edge|this]; simpl in Hcall.
  - destruct (Node.AddEdge this edge σ) as [[b σ1]|] eqn:Hadd; [|done].
    injection Hcall as <-. by eapply Node_AddEdge_outputs_distinct.
  - destruct (Node.RemoveEdge this edge σ) as [[b σ1]|] eqn:Hrem; [|done].
    injection Hcall as <-.
    apply Node_RemoveEdge_inv in Hrem as (o & o' & Ho & -> & Hsub & _).
    intros p op [[-> ->] | [Hne Hp]]%update_lookup_cases; [|by eapply Hσ].
    eapply sublist_NoDup; [|exact Hsub]. by eapply Hσ.
  - destruct (Node.Copy this σ) as [[copy σ1]|] eqn:Hcopy; [|done].
    injection Hcall as <-.
    apply Node_Copy_inv in Hcopy as (o & Ho & Hfresh & ->).
    intros p op [[-> ->] | [Hne Hp]]%update_lookup_cases; [|by eapply Hσ].
    destruct (Copy_object_no_edges o) as [_ ->]. apply NoDup_nil_2.
Qed.

(** A property of stores that every call keeps is kept by every run. *)
Lemma run_invariant (I : Store -> Prop) :
  (forall c σ σ', call c σ = Some σ' -> I σ -> I σ') ->
  forall calls σ σ', run calls σ = Some σ' -> I σ -> I σ'.
Proof.
  intros Hstep calls. induction calls as [|c rest IH]; intros σ σ'; simpl.
  - by intros [= <-].
  - destruct (call c σ) as [σ1|] eqn:Hc; [|done]. simpl.
    intros Hrest Hσ. eapply IH; [exact Hrest|]. by eapply Hstep.
Qed.

(** A store whose nodes hold no edge satisfies both invariants. *)
Lemma no_edges_invariants (σ : Store) :
  map_Forall (fun _ o => Node.outputs o = [] /\ Node.sources o = [])
    (nodes σ) ->
  endpoints_consistent σ /\ outputs_distinct σ.
Proof.
  intros Hnone. split.
  - intros p o Hp. destruct (Hnone _ _ Hp) as [-> ->].
    split; intros x Hx; by apply elem_of_nil in Hx.
  - intros p o Hp. destruct (Hnone _ _ Hp) as [-> _]. apply NoDup_nil_2.
Qed.

Lemma Example_initial_invariants :
  endpoints_consistent Example.initial /\ outputs_distinct Example.initial.
Proof.
  apply no_edges_invariants. unfold Example.initial. simpl.
  repeat (apply map_Forall_insert_2; [done|]). apply map_Forall_empty.
Qed.

End Invariants.

(** X8: every edge that a node holds names the node: the source of each
    output is the node, the destination of its input is the node, and the
    edge is live.  [AddEdge], [RemoveEdge] and [Copy], called in any order
    on any nodes, keep this true of the store. *)
Theorem run_keeps_endpoints_consistent
    (calls : list Call) (σ σ' : Store) :
  run calls σ = Some σ' -> endpoints_consistent σ -> endpoints_consistent σ'.
Proof. apply run_invariant. apply call_endpoints_consistent. Qed.

(** In the example: [e1] is registered with [a] and [b], [b] is copied and
    then releases [e1], [p] takes [e4]. *)
Lemma run_keeps_endpoints_consistent_witness :
  exists σ',
    run [CallAddEdge Example.a Example.e1; CallAddEdge Example.b Example.e1;
         CallCopy Example.b; CallRemoveEdge Example.b Example.e1;
         CallAddEdge Example.p Example.e4] Example.initial = Some σ'
    /\ endpoints_consistent σ'.
Proof.
  set (calls := [CallAddEdge Example.a Example.e1;
                 CallAddEdge Example.b Example.e1;
                 CallCopy Example.b; CallRemoveEdge Example.b Example.e1;
                 CallAddEdge Example.p Example.e4]).
  assert (is_Some (run calls Example.initial)) as [σ' Hrun]
    by (vm_compute; eexists; reflexivity).
  exists σ'. split; [exact Hrun|].
  exact (run_keeps_endpoints_consistent calls Example.initial σ' Hrun
           (proj1 Example_initial_invariants)).
Defined.

(** X9: no output set ever holds an edge twice.  From a store where that is
    so, [AddEdge], [RemoveEdge] and [Copy], called in any order on any
    nodes and with any edges, repeated or not, lead to a store where it is
    so. *)
Theorem run_keeps_outputs_distinct (calls : list Call) (σ σ' : Store) :
  run calls σ = Some σ' -> outputs_distinct σ -> outputs_distinct σ'.
Proof. apply run_invariant. apply call_outputs_distinct. Qed.

(** In the example: [a] is offered [e1] three times and [e4] once. *)
Lemma run_keeps_outputs_distinct_witness :
  exists σ',
    run [CallAddEdge Example.a Example.e1; CallAddEdge Example.a Example.e1;
         CallAddEdge Example.a Example.e4; CallAddEdge Example.a Example.e1]
      Example.initial = Some σ'
    /\ outputs_distinct σ'.
Proof.
  set (calls := [CallAddEdge Example.a Example.e1;
                 CallAddEdge Example.a Example.e1;
                 CallAddEdge Example.a Example.e4;
                 CallAddEdge Example.a Example.e1]).
  assert (is_Some (run calls Example.initial)) as [σ' Hrun]
    by (vm_compute; eexists; reflexivity).
  exists σ'. split; [exact Hrun|].
  exact (run_keeps_outputs_distinct calls Example.initial σ' Hrun
           (proj2 Example_initial_invariants)).
Defined.

(** ** Fan-out *)

(** A virtual [AddEdge] with a live edge that starts at the receiver and is
    not among its outputs appends the edge there, for every class. *)
Lemma Node_AddEdge_as_output (this : NodePtr) (edge : EdgePtr) (σ : Store)
    (o : Object) (e : Edge) :
  nodes σ !! this = Some o -> edges σ !! edge = Some e ->
  src e = Some this -> edge ∉ Node.outputs o ->
  exists o',
    Node.AddEdge this edge σ = Some (true, Node.update this o' σ)
    /\ Node.outputs o' = Node.outputs o ++ [edge]
    /\ Node.sources o' = Node.sources o.
Proof.
  intros Ho He Hsrc Hnew. unfold Node.AddEdge. rewrite Ho, He. simpl.
  destruct o as [[n d]|[n]|[n dv]|[m st sv iv bv]]; simpl;
    unfold Node.outputs in Hnew; simpl in Hnew.
  - rewrite NormalNode_AddEdge_as_output by done. by eexists.
  - rewrite NormalNode_AddEdge_as_output by done. by eexists.
  - rewrite NormalNode_AddEdge_as_output by done. by eexists.
  - rewrite MultiOutputNode_AddEdge_accept by done. by eexists.
Qed.

(** X10: fan-out is not limited and keeps the order of the calls.  When the
    edges of a list are pairwise different, live, start at the node and are
    not yet among its outputs, calling [AddEdge] on the node for each of
    them in turn returns true every time; the outputs are then the old ones
    followed by the list, the sources of the node are untouched, and so are
    the edges and all other nodes. *)
Theorem AddEdge_each_fan_out (this : NodePtr) (es : list EdgePtr) :
  forall (σ : Store) (o : Object),
    nodes σ !! this = Some o ->
    NoDup es ->
    (forall edge, edge ∈ es -> edge ∉ Node.outputs o) ->
    (forall edge, edge ∈ es ->
       exists e, edges σ !! edge = Some e /\ src e = Some this) ->
    exists σ' o',
      AddEdge_each this es σ = Some (replicate (length es) true, σ')
      /\ nodes σ' !! this = Some o'
      /\ Node.outputs o' = Node.outputs o ++ es
      /\ Node.sources o' = Node.sources o
      /\ edges σ' = edges σ
      /\ forall other, other ≠ this -> nodes σ' !! other = nodes σ !! other.
Proof.
  induction es as [|edge rest IH]; intros σ o Ho Hnd Hnew Hlive.
  - exists σ, o. simpl. rewrite app_nil_r. repeat split; done.
  - apply NoDup_cons in Hnd as [Hedge Hnd].
    destruct (Hlive edge) as (e & He & Hsrc); [by left|].
    destruct (Node_AddEdge_as_output this edge σ o e)
      as (o1 & Hcall & Houts & Hsrcs); try done.
    { apply Hnew. by left. }
    destruct (IH (Node.update this o1 σ) o1)
      as (σ' & o' & Heach & Ho' & Houts' & Hsrcs' & Hedges & Hframe).
    + apply update_lookup.
    + done.
    + intros x Hx. rewrite Houts. apply not_elem_of_app. split.
      * apply Hnew. by right.
      * intros ->%list_elem_of_singleton. done.
    + intros x Hx. apply Hlive. by right.
    + exists σ', o'. simpl. rewrite Hcall. simpl. rewrite Heach. simpl.
      split; [done|]. split; [done|].
      split; [by rewrite Houts', Houts, <- app_assoc|].
      split; [congruence|]. split; [done|].
      intros other Hne. rewrite Hframe by done.
      apply update_lookup_other. congruence.
Qed.

(** Signal [a] of the example drives [e1] and [e4]. *)
Lemma AddEdge_each_fan_out_witness :
  exists σ' o',
    AddEdge_each Example.a [Example.e1; Example.e4] Example.initial
    = Some ([true; true], σ')
    /\ nodes σ' !! Example.a = Some o'
    /\ Node.outputs o' = [Example.e1; Example.e4].
Proof.
  destruct (AddEdge_each_fan_out Example.a [Example.e1; Example.e4]
              Example.initial (ASignal (Signal.Make "a" Example.bit)))
    as (σ' & o' & Heach & Ho' & Houts & _).
  - reflexivity.
  - apply NoDup_cons. split; [|apply NoDup_singleton].
    intros Hin%list_elem_of_singleton. discriminate Hin.
  - intros edge _. apply not_elem_of_nil.
  - intros edge [->|Hin]%elem_of_cons.
    + exists (mkEdge (Some Example.a) (Some Example.b)). by split.
    + apply list_elem_of_singleton in Hin as ->.
      exists (mkEdge (Some Example.a) (Some Example.p)). by split.
  - exists σ', o'. split; [exact Heach|]. split; [exact Ho'|exact Houts].
Defined.

(** ** Literals in the store *)

(** X11: a literal takes no inbound edge through [AddEdge] either.  A
    virtual [AddEdge] on a [Literal] with an edge whose source is not the
    literal returns false and leaves the store as it was, also when the
    destination of the edge is that literal. *)
Theorem Literal_AddEdge_rejects_inbound
    (this : NodePtr) (edge : EdgePtr) (σ : Store) (l : Literal) (e : Edge) :
  nodes σ !! this = Some (ALiteral l) ->
  edges σ !! edge = Some e ->
  src e ≠ Some this ->
  Node.AddEdge this edge σ = Some (false, σ).
Proof.
  intros Hl He Hsrc. unfold Node.AddEdge. rewrite Hl, He. simpl.
  rewrite MultiOutputNode_AddEdge_reject by (by intros [? _]).
  destruct l. simpl. by rewrite update_same.
Qed.

(** A store with the literal 42 at address 4 and an edge from node 1 to that
    literal. *)
Lemma Literal_AddEdge_rejects_inbound_witness :
  let σ := mkStore
             (<[4%positive := ALiteral (Literal.Make_of_int 22%positive 42)]> ∅)
             (<[11%positive := mkEdge (Some 1%positive) (Some 4%positive)]> ∅)
  in
  Node.AddEdge 4%positive 11%positive σ = Some (false, σ).
Proof.
  apply (Literal_AddEdge_rejects_inbound 4%positive 11%positive _
           (Literal.Make_of_int 22%positive 42)
           (mkEdge (Some 1%positive) (Some 4%positive))).
  - reflexivity.
  - reflexivity.
  - discriminate.
Defined.

(** X12: the names that [Literal::Make(int)] and [Literal::Make(std::string)]
    give never clash.  The name of an integer literal is [int] followed by
    its rendering; two integer literals have the same name only for the same
    value, two string literals likewise, and an integer literal never has the
    name of a string literal. *)
Theorem Literal_Make_names_tell_values_apart
    (integer string_type : TypePtr) (v w : Z) (s t : string) :
  name (Literal.Make_of_int integer v)
  = "int" +:+ Literal.ToString (Literal.Make_of_int integer v)
  /\ (name (Literal.Make_of_int integer v) = name (Literal.Make_of_int integer w)
      <-> v = w)
  /\ (name (Literal.Make_of_string string_type s)
      = name (Literal.Make_of_string string_type t)
      <-> s = t)
  /\ name (Literal.Make_of_int integer v)
     ≠ name (Literal.Make_of_string string_type s).
Proof.
  split; [done|]. split; [|split].
  - split; [|by intros ->]. simpl. intros [= Heq]. by apply to_string_inj.
  - split; [|by intros ->]. simpl. by intros [= Heq].
  - simpl. discriminate.
Qed.

(** ** Parameters in the store *)

(** X13: the value of a parameter follows its input edge from call to call.
    After a virtual [AddEdge] with an edge from another node [s] to the
    parameter, [val()] is [s], whatever input or default the parameter had;
    after the following [RemoveEdge] of that edge, [val()] is the default
    given at construction (no value if there was none): an input held before
    the two calls does not come back. *)
Theorem Parameter_val_tracks_the_input
    (this s : NodePtr) (edge : EdgePtr) (e : Edge) (σ : Store)
    (self : Parameter_) :
  nodes σ !! this = Some (AParameter self) ->
  edges σ !! edge = Some e ->
  src e = Some s -> s ≠ this -> dst e = Some this ->
  exists σ1 σ2 p1 p2,
    Node.AddEdge this edge σ = Some (true, σ1)
    /\ nodes σ1 !! this = Some (AParameter p1)
    /\ Parameter_.val σ1 p1 = Some (Some s)
    /\ Node.RemoveEdge this edge σ1 = Some (true, σ2)
    /\ nodes σ2 !! this = Some (AParameter p2)
    /\ Parameter_.val σ2 p2 = Some (default_value_ self).
Proof.
  intros Ho He Hsrc Hne Hdst.
  assert (src e ≠ Some this) as Hsrc' by congruence.
  set (p1 := mkParameter (mkNormalNode self (Some edge)) (default_value_ self)).
  set (p2 := mkParameter (mkNormalNode self None) (default_value_ self)).
  set (σ1 := Node.update this (AParameter p1) σ).
  set (σ2 := Node.update this (AParameter p2) σ1).
  exists σ1, σ2, p1, p2.
  split.
  { unfold Node.AddEdge. rewrite Ho, He. simpl.
    rewrite NormalNode_AddEdge_as_input; [done|by intros [? _]|done]. }
  split; [apply update_lookup|].
  split.
  { unfold Parameter_.val. simpl. replace (edges σ !! edge) with (Some e).
    simpl. by rewrite Hsrc. }
  split.
  { unfold Node.RemoveEdge, σ1. rewrite update_lookup. simpl.
    rewrite He. simpl.
    rewrite NormalNode_RemoveEdge_as_input; [done|by intros [? _]|done..]. }
  split; [apply update_lookup|].
  unfold Parameter_.val. simpl. by destruct (default_value_ self).
Qed.

(** Parameter [p] of the example, whose default is the literal [l], is
    driven by [a] through [e4] and released again. *)
Lemma Parameter_val_tracks_the_input_witness :
  exists σ1 σ2 p1 p2,
    Node.AddEdge Example.p Example.e4 Example.initial = Some (true, σ1)
    /\ nodes σ1 !! Example.p = Some (AParameter p1)
    /\ Parameter_.val σ1 p1 = Some (Some Example.a)
    /\ Node.RemoveEdge Example.p Example.e4 σ1 = Some (true, σ2)
    /\ nodes σ2 !! Example.p = Some (AParameter p2)
    /\ Parameter_.val σ2 p2 = Some (Some Example.l).
Proof.
  apply (Parameter_val_tracks_the_input Example.p Example.a Example.e4
           (mkEdge (Some Example.a) (Some Example.p)) Example.initial
           (Parameter_.Make "p" Example.integer (Some Example.l)));
    (reflexivity || discriminate).
Defined.

(** ** Copies of copies *)

(** X14: copying is idempotent and forgets only the edges.  The copy of a
    copy is the copy; a node that holds no edge and carries the identifier
    of its class is equal to its copy; the copy of a parameter, driven or
    not, resolves to the default of the original. *)
Theorem Copy_object_idempotent (o : Object) (σ : Store) :
  Node.Copy_object (Node.Copy_object o) = Node.Copy_object o
  /\ node_id_ (Node.base (Node.Copy_object o)) = class_id o
  /\ (Node.Copy_object o = o
      <-> Node.outputs o = [] /\ Node.sources o = []
          /\ node_id_ (Node.base o) = class_id o)
  /\ forall p : Parameter_,
       Parameter_.val σ (Parameter_.Copy p) = Some (default_value_ p).
Proof.
  split; [by destruct o|]. split; [by destruct o|]. split.
  - split.
    + intros <-. by destruct o.
    + intros (Houts & Hsrcs & Hid).
      destruct o as [[[[[nm id ty] outs] inp] d]|[[[[nm id ty] outs] inp]]
                    |[[[[nm id ty] outs] inp] dv]
                    |[[[nm id ty] outs] st sv iv bv]];
        unfold Node.outputs, Node.sources, NormalNode.sources in *;
        simpl in *; subst; try done.
      * by destruct inp.
      * by destruct inp.
      * by destruct inp.
  - intros p. unfold Parameter_.val. simpl. by destruct (default_value_ p).
Qed.

(** ** Names of kinds and directions *)

(** X15: [ToString(Node::NodeID)] gives every identifier a name of its own,
    and the identifier that each constructor stamps renders as the name of
    the class. *)
Theorem ToString_NodeID_injective (a b : NodeID) :
  (ToString a = ToString b <-> a = b)
  /\ (forall name type dir,
        ToString (node_id_ (Port.Make name type dir)) = "Port")
  /\ (forall name type, ToString (node_id_ (Signal.Make name type)) = "Signal")
  /\ (forall name type default,
        ToString (node_id_ (Parameter_.Make name type default)) = "Parameter")
  /\ (forall name type value,
        ToString (node_id_ (Literal.Make_int name type value)) = "Literal")
  /\ (forall name type value,
        ToString (node_id_ (Literal.Make_bool name type value)) = "Literal")
  /\ forall name type value,
       ToString (node_id_ (Literal.Make_string name type value)) = "Literal".
Proof.
  split; [|by repeat split].
  split; [|by intros ->]. by destruct a, b.
Qed.

(** X16: [Term::str] gives each direction a name of its own, and
    [Term::Invert] changes the name exactly for in and out: the name of the
    inverted direction is the old name only for none. *)
Theorem Term_str_injective (d1 d2 : Term.Dir) :
  (Term.str d1 = Term.str d2 <-> d1 = d2)
  /\ (Term.str (Term.Invert d1) = Term.str d1 <-> d1 = Term.NONE)
  /\ Term.str (Term.Invert Term.IN) = "out"
  /\ Term.str (Term.Invert Term.OUT) = "in".
Proof.
  split; [|split; [|done]].
  - split; [|by intros ->]. by destruct d1, d2.
  - split; [|by intros ->]. by destruct d1.
Qed.

(** X17: [Port::InvertDirection] changes the direction and nothing else: the
    name, the type, the outputs and the input of the port are untouched.
    Two inversions give back the port, one inversion leaves it as it is
    exactly for direction none, and inverting a copy is copying the inverted
    port. *)
Theorem Port_InvertDirection_flips_only_the_direction (p : Port) :
  Port_base (Port.InvertDirection p) = Port_base p
  /\ Port.dir (Port.InvertDirection p) = Term.Invert (Port.dir p)
  /\ Port.InvertDirection (Port.InvertDirection p) = p
  /\ (Port.InvertDirection p = p <-> Port.dir p = Term.NONE)
  /\ Port.Copy (Port.InvertDirection p) = Port.InvertDirection (Port.Copy p).
Proof.
  destruct p as [n d]. unfold Port.InvertDirection, Port.dir. simpl.
  split; [done|]. split; [done|].
  split; [by destruct d|]. split; [|done].
  split; [intros [= Hd]; by destruct d|by intros ->].
Qed.

(** ** After an edge is gone *)

(** X18: an input edge that a second [NormalNode::AddEdge] has replaced can no
    longer be taken from the node.  When the node holds the input [held],
    whose source is not the node, and is offered a different edge whose
    destination is the node and whose source is not the node either,
    [NormalNode::AddEdge] returns true and the new edge is the only source;
    [NormalNode::RemoveEdge] with [held] then returns false and changes
    nothing. *)
Theorem NormalNode_replaced_input_cannot_be_removed
    (this : NodePtr) (held edge : EdgePtr) (eh e : Edge) (self : NormalNode) :
  input_ self = Some held -> held ≠ edge ->
  dst e = Some this -> src e ≠ Some this -> src eh ≠ Some this ->
  exists self1,
    NormalNode.AddEdge this edge e self = (true, self1)
    /\ NormalNode.sources self1 = [edge]
    /\ NormalNode.RemoveEdge this held eh self1 = (false, self1).
Proof.
  intros Hheld Hne Hdst Hsrc Hsrch.
  exists (mkNormalNode self (Some edge)).
  split; [apply NormalNode_AddEdge_as_input; [by intros [? _]|done]|].
  split; [done|].
  apply NormalNode_RemoveEdge_rejected; [by intros [? _]|].
  simpl. intros [_ [= Heq]]. by apply Hne.
Qed.

(** Port [b] holds [e1], accepts [e2] and then refuses to release [e1]. *)
Lemma NormalNode_replaced_input_cannot_be_removed_witness :
  exists self1,
    NormalNode.AddEdge Example.b Example.e2
      (mkEdge (Some Example.a2) (Some Example.b))
      (mkNormalNode (MultiOutputNode.ctor "b" PORT Example.bit)
         (Some Example.e1))
    = (true, self1)
    /\ NormalNode.sources self1 = [Example.e2]
    /\ NormalNode.RemoveEdge Example.b Example.e1
         (mkEdge (Some Example.a) (Some Example.b)) self1
       = (false, self1).
Proof.
  apply (NormalNode_replaced_input_cannot_be_removed Example.b Example.e1
           Example.e2 (mkEdge (Some Example.a) (Some Example.b))
           (mkEdge (Some Example.a2) (Some Example.b))
           (mkNormalNode (MultiOutputNode.ctor "b" PORT Example.bit)
              (Some Example.e1)));
    (reflexivity || discriminate).
Defined.

(** X19: on a node whose output set has no repeated entry, an edge that
    [MultiOutputNode::RemoveEdge] has removed is no longer an output, and a
    second [MultiOutputNode::RemoveEdge] with it returns false and changes
    nothing. *)
Theorem MultiOutputNode_RemoveEdge_twice
    (this : NodePtr) (edge : EdgePtr) (e : Edge)
    (self self1 : MultiOutputNode) :
  NoDup (outputs_ self) ->
  MultiOutputNode.RemoveEdge this edge e self = (true, self1) ->
  (edge ∉ outputs_ self1)
  /\ MultiOutputNode.RemoveEdge this edge e self1 = (false, self1).
Proof.
  intros Hnd.
  destruct (MultiOutputNode_RemoveEdge_cases this edge e self)
    as [(Hsrc & l1 & l2 & Hl & Hl1 & ->)|(_ & ->)]; [|done].
  intros [= <-]. simpl.
  rewrite Hl in Hnd. apply NoDup_app in Hnd as (_ & _ & Hnd2).
  apply NoDup_cons in Hnd2 as [Hl2 _].
  assert (edge ∉ l1 ++ l2) as Hgone by (apply not_elem_of_app; by split).
  split; [done|].
  apply MultiOutputNode_RemoveEdge_absent. by intros [_ ?].
Qed.

(** Signal [a] drives [e1] and [e4] and gives up [e1] once. *)
Lemma MultiOutputNode_RemoveEdge_twice_witness :
  let a1 := mkMultiOutputNode (mkNode "a" SIGNAL Example.bit) [Example.e4] in
  (Example.e1 ∉ outputs_ a1)
  /\ MultiOutputNode.RemoveEdge Example.a Example.e1
       (mkEdge (Some Example.a) (Some Example.b)) a1
     = (false, a1).
Proof.
  apply (MultiOutputNode_RemoveEdge_twice Example.a Example.e1
           (mkEdge (Some Example.a) (Some Example.b))
           (mkMultiOutputNode (mkNode "a" SIGNAL Example.bit)
              [Example.e1; Example.e4])).
  - apply NoDup_cons. split; [|apply NoDup_singleton].
    intros Hin%list_elem_of_singleton. discriminate Hin.
  - reflexivity.
Defined.
